(** * Taxi driver client: API service and order-pool reconciler

    A shallow embedding of
    - [services/api_service_fixed.py] (class [APIService]) and
    - [screens/home_screen.py] (class [MapScreen], methods [check_order_pool]
      and [fetch_current_orders], and the reject button of [OrderDialog])
    together with the properties of the specification that concern them.

    Python dictionaries are finite maps with string keys, exceptions are an
    explicit error result that keeps the state reached before the raise, and
    the collaborators (HTTP server, credential store, display) are scripted
    oracles or explicit state. *)

From Stdlib Require Import ZArith QArith List String Ascii Bool Lia.
From stdpp Require Import base option list gmap strings fin_maps pretty.

Local Open Scope string_scope.
Local Open Scope list_scope.
Local Open Scope Z_scope.

(** ** Python values and string primitives *)

Module Py.

(** JSON scalars as Python sees them after [json.loads]. Numbers that are
    not integers are finite rationals. *)
Inductive pyval : Type :=
| PNone
| PBool (b : bool)
| PInt (n : Z)
| PFloat (q : Q)
| PStr (s : string).

(** [bool(v)] *)
Definition truthy (v : pyval) : bool :=
  match v with
  | PNone => false
  | PBool b => b
  | PInt n => negb (n =? 0)
  | PFloat q => negb (Qeq_bool q (inject_Z 0))
  | PStr s => negb (bool_decide (s = ""))
  end.

(** [bool] is a subtype of [int], and [int] compares with [float] by
    value. *)
Definition as_number (v : pyval) : option Q :=
  match v with
  | PBool b => Some (inject_Z (if b then 1 else 0))
  | PInt n => Some (inject_Z n)
  | PFloat q => Some q
  | PNone | PStr _ => None
  end.

(** [a == b] *)
Definition py_eq (a b : pyval) : bool :=
  match as_number a, as_number b with
  | Some x, Some y => Qeq_bool x y
  | None, None =>
      match a, b with
      | PNone, PNone => true
      | PStr s, PStr t => bool_decide (s = t)
      | _, _ => false
      end
  | _, _ => false
  end.

Definition chars (s : string) : list ascii := list_ascii_of_string s.
Definition of_chars (l : list ascii) : string := string_of_list_ascii l.

(** Strings are UTF-8. The white space [str.strip()] removes: the ASCII
    characters 9 to 13 and 28 to 32, and U+0085, U+00A0, U+1680, U+2000 to
    U+200A, U+2028, U+2029, U+202F, U+205F and U+3000, which take two or
    three bytes. *)
Definition isspace (c : ascii) : bool :=
  let n := nat_of_ascii c in
  ((9 <=? n)%nat && (n <=? 13)%nat) || ((28 <=? n)%nat && (n <=? 32)%nat).

(** U+0085 and U+00A0: bytes C2 85 and C2 A0. *)
Definition isspace2 (a b : ascii) : bool :=
  let '(a, b) := (nat_of_ascii a, nat_of_ascii b) in
  (a =? 194)%nat && ((b =? 133)%nat || (b =? 160)%nat).

(** U+1680 (E1 9A 80), U+2000 to U+200A, U+2028, U+2029 and U+202F
    (E2 80 80 to 8A, A8, A9, AF), U+205F (E2 81 9F), U+3000 (E3 80 80). *)
Definition isspace3 (a b c : ascii) : bool :=
  let '(a, b, c) := (nat_of_ascii a, nat_of_ascii b, nat_of_ascii c) in
  ((a =? 225)%nat && (b =? 154)%nat && (c =? 128)%nat)
  || ((a =? 226)%nat && (b =? 128)%nat
      && (((128 <=? c)%nat && (c <=? 138)%nat)
          || (c =? 168)%nat || (c =? 169)%nat || (c =? 175)%nat))
  || ((a =? 226)%nat && (b =? 129)%nat && (c =? 159)%nat)
  || ((a =? 227)%nat && (b =? 128)%nat && (c =? 128)%nat).

(** [s.lstrip()], on the bytes. *)
Fixpoint lstrip_chars (l : list ascii) : list ascii :=
  match l with
  | a :: l1 =>
      if isspace a then lstrip_chars l1
      else match l1 with
           | b :: l2 =>
               if isspace2 a b then lstrip_chars l2
               else match l2 with
                    | c :: l3 =>
                        if isspace3 a b c then lstrip_chars l3 else l
                    | [] => l
                    end
           | [] => l
           end
  | [] => []
  end.

(** [s.rstrip()], on the bytes in reverse order: the last byte of a
    character comes first. *)
Fixpoint rstrip_rev (l : list ascii) : list ascii :=
  match l with
  | c :: l1 =>
      if isspace c then rstrip_rev l1
      else match l1 with
           | b :: l2 =>
               if isspace2 b c then rstrip_rev l2
               else match l2 with
                    | a :: l3 =>
                        if isspace3 a b c then rstrip_rev l3 else l
                    | [] => l
                    end
           | [] => l
           end
  | [] => []
  end.

(** [s.strip()] *)
Definition strip (s : string) : string :=
  of_chars (rev (rstrip_rev (rev (lstrip_chars (chars s))))).

(** [len(s)]: the characters, not the bytes; the bytes 80 to BF continue
    a character. *)
Definition str_len (s : string) : nat :=
  length (List.filter
            (fun c => negb ((128 <=? nat_of_ascii c)%nat
                            && (nat_of_ascii c <=? 191)%nat))
            (chars s)).

Fixpoint starts (p l : list ascii) : bool :=
  match p, l with
  | [], _ => true
  | a :: p', b :: l' => bool_decide (a = b) && starts p' l'
  | _ :: _, [] => false
  end.

(** [s.startswith(p)] *)
Definition startswith (s p : string) : bool := starts (chars p) (chars s).

(** [s.endswith(suf)] *)
Definition endswith (s suf : string) : bool :=
  starts (rev (chars suf)) (rev (chars s)).

(** [s[:-1]] *)
Definition drop_last (s : string) : string := of_chars (removelast (chars s)).

Definition lower_char (c : ascii) : ascii :=
  let n := nat_of_ascii c in
  if ((65 <=? n)%nat && (n <=? 90)%nat) then ascii_of_nat (n + 32) else c.

(** [s.lower()] on the ASCII letters; no other character lowers to a letter
    of ["new"] or ["pending"], the only strings it is compared with. *)
Definition lower (s : string) : string := of_chars (map lower_char (chars s)).

(** Python exceptions, by class, with the text [str(e)] is built from. *)
Inductive Exn : Type :=
| KeyError (key : string)
| AttributeError (msg : string)
| ValueError (msg : string)
| ClientError (msg : string)
| APIConnectionError (msg : string)
| APIAuthenticationError (msg : string)
| OtherError (msg : string).

(** [str(e)] *)
Definition exn_str (e : Exn) : string :=
  match e with
  | KeyError k => "'" +:+ k +:+ "'"
  | AttributeError m | ValueError m | ClientError m
  | APIConnectionError m | APIAuthenticationError m | OtherError m => m
  end.

(** Result of running Python code: a value or a raised exception. *)
Inductive Res (A : Type) : Type :=
| Ok (a : A)
| Raise (e : Exn).
Arguments Ok {A} a.
Arguments Raise {A} e.

(** Stateful code that may raise; the state reached before the raise is
    kept, as in Python. *)
Definition M (S A : Type) : Type := S -> Res A * S.

Definition ret {S A} (a : A) : M S A := fun s => (Ok a, s).
Definition raise {S A} (e : Exn) : M S A := fun s => (Raise e, s).
Definition bind {S A B} (m : M S A) (k : A -> M S B) : M S B :=
  fun s => match m s with
           | (Ok a, s') => k a s'
           | (Raise e, s') => (Raise e, s')
           end.
(** [try: m  except Exception as e: h e] *)
Definition try_except {S A} (m : M S A) (h : Exn -> M S A) : M S A :=
  fun s => match m s with
           | (Ok a, s') => (Ok a, s')
           | (Raise e, s') => h e s'
           end.
Definition get {S} : M S S := fun s => (Ok s, s).
Definition modify {S} (f : S -> S) : M S unit := fun s => (Ok tt, f s).
Definition lift {S A} (r : Res A) : M S A := fun s => (r, s).

End Py.

Import Py.

Notation "'let!' x ':=' m 'in' k" := (bind m (fun x => k))
  (at level 10, x pattern, m at level 100, k at level 200).
Notation "m ';;' k" := (bind m (fun _ => k))
  (at level 100, k at level 200, right associativity).

(** ** Orders and responses *)

(** An order is a JSON object of scalars; [o !! "id"] is [order.get('id')]. *)
Abbreviation Order := (gmap string pyval).

(** Values found in a response object. *)
Inductive rval : Type :=
| RVal (v : pyval)
| RList (l : list Order)
| RDict (d : gmap string pyval).

(** A response or result dictionary. *)
Abbreviation Response := (gmap string rval).

(** [bool(d)] for a dictionary. *)
Definition dict_truthy {A} (d : gmap string A) : bool :=
  negb (bool_decide (size d = 0%nat)).

Definition rtruthy (v : rval) : bool :=
  match v with
  | RVal v => truthy v
  | RList l => match l with [] => false | _ => true end
  | RDict d => dict_truthy d
  end.

(** [bool(d.get(k))] *)
Definition get_truthy (d : Response) (k : string) : bool :=
  match d !! k with
  | Some v => rtruthy v
  | None => false
  end.

Definition rbool (b : bool) : rval := RVal (PBool b).
Definition rstr (s : string) : rval := RVal (PStr s).

(** ** The order-pool reconciler: [MapScreen.check_order_pool] *)

Module Reconciler.

(** An [OrderDialog] object; [dialog_id] stands for its identity. *)
Record Dialog : Type := { dialog_id : nat; order_data : Order }.

(** What the user sees or hears. *)
Inductive UIEvent : Type :=
| PlaySound
| DialogOpen (d : Dialog)
| DialogDismiss (d : Dialog)
| Toast (msg : string).

(** The fields of [MapScreen] the polling code reads or writes, the
    dialogs currently on the display, and the events emitted so far
    (latest first). *)
Record MapScreen : Type := {
  sound_service : bool;
  pool_orders : list Order;
  driver_status : string;
  show_pool_order : bool;
  current_pool_order : option Order;
  order_dialog : option Dialog;
  on_display : list Dialog;
  dialogs_created : nat;
  events : list UIEvent
}.

(** [MapScreen.__init__] *)
Definition init (sound : bool) : MapScreen :=
  {| sound_service := sound; pool_orders := []; driver_status := "offline";
     show_pool_order := false; current_pool_order := None;
     order_dialog := None; on_display := []; dialogs_created := 0%nat;
     events := [] |}.

Definition emit (e : UIEvent) : M MapScreen unit :=
  modify (fun s =>
    {| sound_service := sound_service s; pool_orders := pool_orders s;
       driver_status := driver_status s; show_pool_order := show_pool_order s;
       current_pool_order := current_pool_order s;
       order_dialog := order_dialog s; on_display := on_display s;
       dialogs_created := dialogs_created s; events := e :: events s |}).

Definition toast (msg : string) : M MapScreen unit := emit (Toast msg).

Definition set_pool_orders (l : list Order) : M MapScreen unit :=
  modify (fun s =>
    {| sound_service := sound_service s; pool_orders := l;
       driver_status := driver_status s; show_pool_order := show_pool_order s;
       current_pool_order := current_pool_order s;
       order_dialog := order_dialog s; on_display := on_display s;
       dialogs_created := dialogs_created s; events := events s |}).

Definition set_driver_status (st : string) : M MapScreen unit :=
  modify (fun s =>
    {| sound_service := sound_service s; pool_orders := pool_orders s;
       driver_status := st; show_pool_order := show_pool_order s;
       current_pool_order := current_pool_order s;
       order_dialog := order_dialog s; on_display := on_display s;
       dialogs_created := dialogs_created s; events := events s |}).

(** [show_order_dialog]: records the candidate, builds a new dialog and
    opens it. *)
Definition show_order_dialog (order : Order) : M MapScreen unit :=
  modify (fun s =>
    let d := {| dialog_id := dialogs_created s; order_data := order |} in
    {| sound_service := sound_service s; pool_orders := pool_orders s;
       driver_status := driver_status s; show_pool_order := true;
       current_pool_order := Some order;
       order_dialog := Some d; on_display := d :: on_display s;
       dialogs_created := S (dialogs_created s);
       events := DialogOpen d :: events s |}).

Definition without (d : Dialog) (l : list Dialog) : list Dialog :=
  filter (fun d' => dialog_id d' ≠ dialog_id d) l.

(** [close_order_dialog] *)
Definition close_order_dialog : M MapScreen unit :=
  modify (fun s =>
    match order_dialog s with
    | Some d =>
        {| sound_service := sound_service s; pool_orders := pool_orders s;
           driver_status := driver_status s; show_pool_order := false;
           current_pool_order := None;
           order_dialog := None; on_display := without d (on_display s);
           dialogs_created := dialogs_created s;
           events := DialogDismiss d :: events s |}
    | None =>
        {| sound_service := sound_service s; pool_orders := pool_orders s;
           driver_status := driver_status s; show_pool_order := false;
           current_pool_order := None;
           order_dialog := None; on_display := on_display s;
           dialogs_created := dialogs_created s; events := events s |}
    end).

(** [any(order['id'] == current['id'] for order in new_pool_orders)]:
    both subscripts are evaluated per element, in this order, and a
    missing key raises [KeyError]. *)
Fixpoint any_same_id (current : Order) (l : list Order) : Res bool :=
  match l with
  | [] => Ok false
  | order :: l' =>
      match order !! "id" with
      | None => Raise (KeyError "id")
      | Some a =>
          match current !! "id" with
          | None => Raise (KeyError "id")
          | Some b => if py_eq a b then Ok true else any_same_id current l'
          end
      end
  end.

(** [not order.get('status') or
     order.get('status', '').lower() in ['new', 'pending']] *)
Definition acceptable (order : Order) : Res bool :=
  match order !! "status" with
  | None => Ok true
  | Some v =>
      if negb (truthy v) then Ok true
      else match v with
           | PStr s => Ok (bool_decide (lower s = "new")
                           || bool_decide (lower s = "pending"))
           | _ => Raise (AttributeError "object has no attribute 'lower'")
           end
  end.

Arguments any_same_id : simpl never.

(** The list comprehension building [acceptable_orders]. *)
Fixpoint acceptable_orders (l : list Order) : Res (list Order) :=
  match l with
  | [] => Ok []
  | order :: l' =>
      match acceptable order with
      | Raise e => Raise e
      | Ok keep =>
          match acceptable_orders l' with
          | Raise e => Raise e
          | Ok rest => Ok (if keep then order :: rest else rest)
          end
      end
  end.

Arguments acceptable_orders : simpl never.

(** What [await self.api_service.check_order_pool()] produces. *)
Inductive ApiReply : Type :=
| ApiRaised (e : Exn)
| ApiReturned (response : Response).

(** The list taken from the response: [data] if it is a list, else
    [orders] if it is a list, else the empty list. *)
Definition snapshot_of (response : Response) : list Order :=
  match response !! "data" with
  | Some (RList l) => l
  | _ => match response !! "orders" with
         | Some (RList l) => l
         | _ => []
         end
  end.

Definition order_truthy (o : option Order) : bool :=
  match o with
  | Some d => dict_truthy d
  | None => false
  end.

Definition vanished_msg : string := "Zlecenie nie jest już dostępne".
Definition new_order_msg : string := "Nowe zlecenie!".

(** The body of the [try] block of [check_order_pool]. One call runs to
    completion before the next starts. *)
Definition check_order_pool_body (reply : ApiReply) : M MapScreen unit :=
  let! s := get in
  if bool_decide (driver_status s = "offline") then ret tt
  else
    let! response :=
      match reply with
      | ApiRaised e => raise e
      | ApiReturned r => ret r
      end in
    if get_truthy response "success" then
      let new_pool_orders := snapshot_of response in
      let! gone :=
        (if show_pool_order s && order_truthy (current_pool_order s) then
           match current_pool_order s with
           | Some current =>
               let! current_order_exists :=
                 lift (any_same_id current new_pool_orders) in
               if negb current_order_exists then
                 (* the message printed holds [current_pool_order['id']] *)
                 lift (match current !! "id" with
                       | Some _ => Ok tt
                       | None => Raise (KeyError "id")
                       end) ;;
                 close_order_dialog ;;
                 toast vanished_msg ;;
                 ret true
               else ret false
           | None => ret false
           end
         else ret false) in
      if (gone : bool) then ret tt (* return *)
      else
        (match new_pool_orders with
         | _ :: _ =>
             if negb (show_pool_order s) then
               let! candidates := lift (acceptable_orders new_pool_orders) in
               match candidates with
               | first :: _ =>
                   (if sound_service s then emit PlaySound else ret tt) ;;
                   show_order_dialog first ;;
                   toast new_order_msg
               | [] => ret tt
               end
             else ret tt
         | [] => ret tt
         end) ;;
        set_pool_orders new_pool_orders
    else ret tt.

(** [check_order_pool]: any exception is printed and dropped. *)
Definition check_order_pool (reply : ApiReply) : M MapScreen unit :=
  try_except (check_order_pool_body reply) (fun _ => ret tt).

(** [fetch_driver_status]: a successful status check puts the driver
    online. *)
Definition fetch_driver_status (ok : bool) : M MapScreen unit :=
  if ok then set_driver_status "online" else ret tt.

(** One thing that happens to the screen. *)
Inductive Input : Type :=
| Tick (reply : ApiReply)
| StatusFetched (ok : bool).

Definition step (i : Input) (s : MapScreen) : MapScreen :=
  match i with
  | Tick reply => snd (check_order_pool reply s)
  | StatusFetched ok => snd (fetch_driver_status ok s)
  end.

(** The screen after a sequence of inputs, oldest first. *)
Definition run (inputs : list Input) (s : MapScreen) : MapScreen :=
  fold_left (fun s i => step i s) inputs s.

(** Events emitted by one poll, oldest first. *)
Definition poll_events (reply : ApiReply) (s : MapScreen) : list UIEvent :=
  let s' := snd (check_order_pool reply s) in
  rev (take (length (events s') - length (events s)) (events s')).

(** Outcomes of one poll, named. *)
Definition with_pool (l : list Order) (s : MapScreen) : MapScreen :=
  snd (set_pool_orders l s).
Definition vanish (s : MapScreen) : MapScreen :=
  snd ((close_order_dialog ;; toast vanished_msg) s).
Definition present (first : Order) (l : list Order) (s : MapScreen)
  : MapScreen :=
  snd (((if sound_service s then emit PlaySound else ret tt) ;;
        show_order_dialog first ;; toast new_order_msg ;;
        set_pool_orders l) s).

(** The events of [vanish]. *)
Definition vanish_events (s : MapScreen) : list UIEvent :=
  match order_dialog s with
  | Some d => [DialogDismiss d; Toast vanished_msg]
  | None => [Toast vanished_msg]
  end.

(** Every order of [l] carries an id, and none equals [k]. *)
Definition id_absent (k : pyval) (l : list Order) : bool :=
  forallb (fun o : Order => match o !! "id" with
                            | Some v => negb (py_eq v k)
                            | None => false
                            end) l.

(** Some order of [l] carries an id equal to [k]. *)
Definition id_present (k : pyval) (l : list Order) : bool :=
  existsb (fun o : Order => match o !! "id" with
                            | Some v => py_eq v k
                            | None => false
                            end) l.

(** The screen is idle: nothing shown, no dialog on the display. *)
Definition idle (s : MapScreen) : Prop :=
  show_pool_order s = false /\ current_pool_order s = None
  /\ order_dialog s = None /\ on_display s = [].

(** The screen shows exactly the dialog [d]. *)
Definition showing (d : Dialog) (s : MapScreen) : Prop :=
  show_pool_order s = true /\ current_pool_order s = Some (order_data d)
  /\ order_dialog s = Some d /\ on_display s = [d]
  /\ driver_status s <> "offline".

Definition inv (s : MapScreen) : Prop := idle s \/ exists d, showing d s.

(** Sample data: order 7, a pool holding it, and an empty pool. *)
Definition order7 : Order := {[ "id" := PInt 7; "status" := PStr "new" ]}.
Definition order8 : Order := {[ "id" := PInt 8; "status" := PStr "taken" ]}.
Definition pool_with (l : list Order) : Response :=
  {[ "success" := rbool true; "data" := RList l ]}.

End Reconciler.

(** ** The API client: class [APIService] *)

Module Api.

(** The attributes of an [APIService] object. *)
Record APIService : Type := mkAPI {
  is_logged_in : bool;
  base_url : option string;
  auth_header : option string;
  phone : option string;
  password : option string;
  driver_id : option Z;
  last_endpoint : option string;
  max_retries : Z;
  retry_delay : Q;
  timeout : Z;
  last_error : option Exn;
  error_count : Z
}.

(** A call to [session.request]. *)
Record Request : Type := {
  req_method : string;
  req_url : string;
  req_headers : gmap string pyval;
  req_json : option (gmap string pyval)
}.

(** A parsed JSON document: an object, or a value of another type. *)
Inductive Body : Type :=
| BObj (r : Response)
| BOther (type_name : string).

(** What a call to [session.request] and the reading of its reply yield. *)
Inductive Exchange : Type :=
| NetworkFailure (e : string)
    (* aiohttp.ClientError or asyncio.TimeoutError *)
| OtherFailure (e : string)
    (* any other exception raised while the request is under way *)
| JsonReply (status : Z) (body : Body)
    (* JSON content type, body parsed *)
| TextReply (status : Z) (text : string) (json_error : string)
    (* another content type; [response.json()] would raise a
       ContentTypeError with text [json_error] *)
| GarbledReply (status : Z) (text : string) (json_error : string).
    (* JSON content type, body is not JSON; [response.json()] raises a
       JSONDecodeError with text [json_error] *)

(** The service, the credential store ([keyring], service
    ["taxi_driver"]) and the record of what was asked of the
    collaborators (latest first). *)
Record World : Type := mkWorld {
  svc : APIService;
  keyring : gmap string string;
  keyring_ops : nat;
  http_log : list Request;
  sleeps : list Q
}.

(** The collaborators: base64, [str()] of a JSON value, the HTTP server
    (by number of earlier calls), the credential store's faults (by number
    of earlier operations), the clock, and the text of the [TypeError]
    Python raises when a call is given the argument [method] twice. *)
Record Env : Type := {
  b64encode : string -> string;
  fmt : rval -> string;
  server : nat -> Request -> Exchange;
  kr_fault : nat -> bool;
  now : Q;
  method_twice : string
}.

Definition default_url : string :=
  "https://e6db2f06-15c4-4633-bd30-7fbd9c8200b1-00-l2xqyupphiyt.riker.replit.dev".

(** [APIService.__init__] *)
Definition new_service : APIService :=
  {| is_logged_in := false; base_url := Some default_url;
     auth_header := None; phone := None; password := None;
     driver_id := None; last_endpoint := None; max_retries := 3;
     retry_delay := inject_Z 1; timeout := 30; last_error := None;
     error_count := 0 |}.

Definition new_world : World :=
  {| svc := new_service; keyring := ∅; keyring_ops := 0%nat;
     http_log := []; sleeps := [] |}.

Definition upd_svc (f : APIService -> APIService) : M World unit :=
  modify (fun w => mkWorld (f (svc w)) (keyring w) (keyring_ops w)
                           (http_log w) (sleeps w)).

Definition set_is_logged_in (v : bool) : M World unit :=
  upd_svc (fun a => mkAPI v (base_url a) (auth_header a) (phone a)
    (password a) (driver_id a) (last_endpoint a) (max_retries a)
    (retry_delay a) (timeout a) (last_error a) (error_count a)).
Definition set_base_url (v : option string) : M World unit :=
  upd_svc (fun a => mkAPI (is_logged_in a) v (auth_header a) (phone a)
    (password a) (driver_id a) (last_endpoint a) (max_retries a)
    (retry_delay a) (timeout a) (last_error a) (error_count a)).
Definition set_auth_header (v : option string) : M World unit :=
  upd_svc (fun a => mkAPI (is_logged_in a) (base_url a) v (phone a)
    (password a) (driver_id a) (last_endpoint a) (max_retries a)
    (retry_delay a) (timeout a) (last_error a) (error_count a)).
Definition set_phone (v : option string) : M World unit :=
  upd_svc (fun a => mkAPI (is_logged_in a) (base_url a) (auth_header a) v
    (password a) (driver_id a) (last_endpoint a) (max_retries a)
    (retry_delay a) (timeout a) (last_error a) (error_count a)).
Definition set_password (v : option string) : M World unit :=
  upd_svc (fun a => mkAPI (is_logged_in a) (base_url a) (auth_header a)
    (phone a) v (driver_id a) (last_endpoint a) (max_retries a)
    (retry_delay a) (timeout a) (last_error a) (error_count a)).
Definition set_driver_id (v : option Z) : M World unit :=
  upd_svc (fun a => mkAPI (is_logged_in a) (base_url a) (auth_header a)
    (phone a) (password a) v (last_endpoint a) (max_retries a)
    (retry_delay a) (timeout a) (last_error a) (error_count a)).
Definition set_last_endpoint (v : option string) : M World unit :=
  upd_svc (fun a => mkAPI (is_logged_in a) (base_url a) (auth_header a)
    (phone a) (password a) (driver_id a) v (max_retries a)
    (retry_delay a) (timeout a) (last_error a) (error_count a)).
Definition record_error (e : Exn) : M World unit :=
  upd_svc (fun a => mkAPI (is_logged_in a) (base_url a) (auth_header a)
    (phone a) (password a) (driver_id a) (last_endpoint a) (max_retries a)
    (retry_delay a) (timeout a) (Some e) (error_count a + 1)).

(** [bool(s)] for an optional string: [None] and [''] are false. *)
Definition str_truthy (o : option string) : bool :=
  match o with
  | Some s => negb (bool_decide (s = ""))
  | None => false
  end.

(** [a or b] *)
Definition str_or (a b : option string) : option string :=
  if str_truthy a then a else b.

(** [f"{o}"] for an optional string. *)
Definition str_of (o : option string) : string :=
  match o with
  | Some s => s
  | None => "None"
  end.

Definition opt_pyval (o : option string) : pyval :=
  match o with
  | Some s => PStr s
  | None => PNone
  end.

(** [body.get(k)]; a value that is not a dictionary has no [get]. *)
Definition body_get (b : Body) (k : string) : Res (option rval) :=
  match b with
  | BObj r => Ok (r !! k)
  | BOther ty =>
      Raise (AttributeError ("'" +:+ ty +:+ "' object has no attribute 'get'"))
  end.

Definition opt_rtruthy (o : option rval) : bool :=
  match o with
  | Some v => rtruthy v
  | None => false
  end.

(** [v == "success"] *)
Definition is_success_str (o : option rval) : bool :=
  match o with
  | Some (RVal (PStr s)) => bool_decide (s = "success")
  | _ => false
  end.

(** [isinstance(v, list)] *)
Definition is_list (o : option rval) : bool :=
  match o with
  | Some (RList _) => true
  | _ => false
  end.

(** [d.get(k, default)] *)
Definition get_or (o : option rval) (default : string) : rval :=
  match o with
  | Some v => v
  | None => rstr default
  end.

Definition failure (message : rval) : Response :=
  {[ "success" := rbool false; "message" := message ]}.

Section WithEnv.

Variable env : Env.

(** *** Collaborators *)

Definition kr_op {A} (f : gmap string string -> A * gmap string string)
  : M World A :=
  fun w =>
    if kr_fault env (keyring_ops w) then
      (Raise (OtherError "keyring error"),
       mkWorld (svc w) (keyring w) (S (keyring_ops w)) (http_log w)
               (sleeps w))
    else
      let '(a, k) := f (keyring w) in
      (Ok a, mkWorld (svc w) k (S (keyring_ops w)) (http_log w) (sleeps w)).

(** [keyring.get_password("taxi_driver", key)] *)
Definition get_password (key : string) : M World (option string) :=
  kr_op (fun k => (k !! key, k)).
(** [keyring.set_password("taxi_driver", key, value)] *)
Definition set_password_entry (key value : string) : M World unit :=
  kr_op (fun k => (tt, <[key := value]> k)).
(** [keyring.delete_password("taxi_driver", key)]: a [PasswordDeleteError]
    when there is no such entry. *)
Definition delete_password (key : string) : M World unit :=
  let! found := kr_op (fun k => (bool_decide (is_Some (k !! key)),
                                 delete key k)) in
  if (found : bool) then ret tt
  else raise (OtherError "Password not found").

(** [session.request(...)] and the reading of the reply. *)
Definition http (req : Request) : M World Exchange :=
  fun w =>
    (Ok (server env (length (http_log w)) req),
     mkWorld (svc w) (keyring w) (keyring_ops w) (req :: http_log w)
             (sleeps w)).

(** [await asyncio.sleep(t)] *)
Definition sleep (t : Q) : M World unit :=
  modify (fun w => mkWorld (svc w) (keyring w) (keyring_ops w)
                           (http_log w) (t :: sleeps w)).

(** *** Error report *)

(** [_handle_error] *)
Definition _handle_error (error : Exn) (endpoint : string)
  : M World Response :=
  record_error error ;;
  ret ({[ "success" := rbool false;
          "error" := rstr (exn_str error);
          "endpoint" := rstr endpoint;
          "timestamp" := RVal (PFloat (now env)) ]} : Response).

(** *** The retrying transport *)

(** The [try] block of one attempt of [_make_request], after the
    request was sent. *)
Definition read_reply (endpoint : string) (x : Exchange) : Res Body :=
  match x with
  | NetworkFailure e => Raise (ClientError e)
  | OtherFailure e => Raise (OtherError e)
  | TextReply _ _ json_error =>
      (* response.json() rejects the content type: a ClientError *)
      Raise (ClientError json_error)
  | GarbledReply _ _ _ =>
      Raise (APIConnectionError ("Invalid JSON response from " +:+ endpoint))
  | JsonReply status response_data =>
      if status >=? 400 then
        match body_get response_data "error" with
        | Raise e => Raise e
        | Ok found =>
            let error_msg :=
              match found with
              | Some v => fmt env v
              | None => "HTTP " +:+ pretty status
              end in
            if status =? 401 then
              Raise (APIAuthenticationError
                       ("Authentication failed: " +:+ error_msg))
            else
              Raise (APIConnectionError
                       ("API error " +:+ pretty status +:+ ": "
                        +:+ error_msg))
        end
      else Ok response_data
  end.

(** [retry_delay * (2 ** attempt)] *)
Definition backoff (delay : Q) (attempt : nat) : Q :=
  Qmult delay (inject_Z (2 ^ Z.of_nat attempt)).

(** The loop [for attempt in range(retries + 1)], with [remaining]
    iterations left. *)
Fixpoint attempts (req : Request) (endpoint : string) (retries : Z)
    (remaining : nat) (attempt : nat) : M World Body :=
  match remaining with
  | O => raise (APIConnectionError "Request failed for unknown reason")
  | S remaining' =>
      let! x := http req in
      match read_reply endpoint x with
      | Ok response_data => ret response_data
      | Raise (ClientError e) =>
          if Z.of_nat attempt <? retries then
            let! w := get in
            sleep (backoff (retry_delay (svc w)) attempt) ;;
            attempts req endpoint retries remaining' (S attempt)
          else
            raise (APIConnectionError
                     ("Failed after " +:+ pretty (retries + 1)
                      +:+ " attempts: " +:+ e))
      | Raise e =>
          raise (APIConnectionError ("Unexpected error: " +:+ exn_str e))
      end
  end.

(** The request [_make_request] sends: the URL under the base URL and
    the default headers, the authorization header when there is one,
    overridden by the caller's headers. *)
Definition request_for (a : APIService) (method endpoint : string)
    (data : option (gmap string pyval)) (headers : gmap string pyval)
  : Request :=
  let url := str_of (base_url a) +:+ endpoint in
  let request_headers : gmap string pyval :=
    {[ "Content-Type" := PStr "application/json";
       "Accept" := PStr "application/json" ]} in
  let request_headers :=
    if str_truthy (auth_header a)
    then <["Authorization" := opt_pyval (auth_header a)]> request_headers
    else request_headers in
  let request_headers := headers ∪ request_headers in
  {| req_method := method; req_url := url;
     req_headers := request_headers; req_json := data |}.

(** [retries] when given, else [self.max_retries]. *)
Definition effective_retries (retries : option Z) (w : World) : Z :=
  match retries with
  | Some r => r
  | None => max_retries (svc w)
  end.

(** [_make_request] *)
Definition _make_request (method endpoint : string)
    (data : option (gmap string pyval)) (headers : gmap string pyval)
    (retries : option Z) : M World Body :=
  let! w := get in
  let retries := effective_retries retries w in
  set_last_endpoint (Some endpoint) ;;
  attempts (request_for (svc w) method endpoint data headers)
           endpoint retries (Z.to_nat (retries + 1)) 0.

(** *** The generic verbs *)

(** [get]: the second argument is passed on as headers. *)
Definition get_ (endpoint : string) (params : gmap string pyval)
  : M World Body :=
  try_except (_make_request "GET" endpoint None params None)
             (fun e => let! r := _handle_error e endpoint in ret (BObj r)).

Definition post (endpoint : string) (data : option (gmap string pyval))
  : M World Body :=
  try_except (_make_request "POST" endpoint data ∅ None)
             (fun e => let! r := _handle_error e endpoint in ret (BObj r)).

Definition put (endpoint : string) (data : option (gmap string pyval))
  : M World Body :=
  try_except (_make_request "PUT" endpoint data ∅ None)
             (fun e => let! r := _handle_error e endpoint in ret (BObj r)).

Definition delete_ (endpoint : string) : M World Body :=
  try_except (_make_request "DELETE" endpoint None ∅ None)
             (fun e => let! r := _handle_error e endpoint in ret (BObj r)).

(** [check_api_status] *)
Definition check_api_status : M World bool :=
  try_except (_make_request "GET" "/api/health" None ∅ (Some 1) ;; ret true)
             (fun _ => ret false).

(** *** Session *)

(** [initialize]: no request is made and the URL is stored as given. *)
Definition initialize (phone' password' : string)
    (base_url' : option string) : M World unit :=
  set_phone (Some phone') ;;
  set_password (Some password') ;;
  set_base_url (str_or base_url' (Some default_url)) ;;
  let credentials := phone' +:+ ":" +:+ password' in
  let encoded_credentials := b64encode env credentials in
  set_auth_header (Some ("Basic " +:+ encoded_credentials)).

(** [get_base_url] *)
Definition get_base_url : M World string :=
  let! w := get in
  if negb (str_truthy (base_url (svc w))) then ret default_url
  else
    let u := str_of (base_url (svc w)) in
    if endswith u "/" then ret (drop_last u) else ret u.

(** [reset] *)
Definition reset : M World unit :=
  set_is_logged_in false ;;
  set_base_url None ;;
  set_auth_header None ;;
  set_phone None ;;
  set_password None ;;
  set_driver_id None ;;
  set_last_endpoint None.

(** [save_credentials]: a failing store is logged and ignored. *)
Definition save_credentials (phone' password' : string)
    (base_url' : option string) : M World unit :=
  try_except
    (set_password_entry "phone" phone' ;;
     set_password_entry "password" password' ;;
     let! w := get in
     let url_to_save := str_or base_url' (base_url (svc w)) in
     if str_truthy url_to_save
     then set_password_entry "api_url" (str_of url_to_save)
     else ret tt)
    (fun _ => ret tt).

(** [load_saved_api_url] *)
Definition load_saved_api_url : M World (option string) :=
  try_except
    (let! saved_url := get_password "api_url" in
     if str_truthy saved_url
     then set_base_url saved_url ;; ret saved_url
     else ret None)
    (fun _ => ret None).

(** [change_base_url]: returns [True] or re-raises what went wrong. *)
Definition change_base_url (new_base_url : string) : M World bool :=
  try_except
    (if bool_decide (new_base_url = "")
        || bool_decide (strip new_base_url = "")
     then raise (ValueError "Nowy adres URL nie może być pusty")
     else
       let formatted_url := strip new_base_url in
       let formatted_url :=
         if endswith formatted_url "/" then drop_last formatted_url
         else formatted_url in
       let formatted_url :=
         if negb (startswith formatted_url "http://")
            && negb (startswith formatted_url "https://")
         then "https://" +:+ formatted_url
         else formatted_url in
       set_password_entry "api_url" formatted_url ;;
       set_base_url (Some formatted_url) ;;
       ret true)
    (fun error => raise error).

(** *** Plain and authenticated fetch *)

(** The options dictionary of [_fetch_with_logging] and [_auth_fetch]. *)
Record Options : Type := {
  opt_method : option string;
  opt_headers : gmap string pyval;
  opt_json : option (gmap string pyval)
}.

Definition no_options : Options :=
  {| opt_method := None; opt_headers := ∅; opt_json := None |}.
Definition post_options (json : option (gmap string pyval)) : Options :=
  {| opt_method := Some "POST"; opt_headers := ∅; opt_json := json |}.

(** [_fetch_with_logging]: one call to [session.request], no status
    check and no retry; yields the [data] entry of its result. The call is
    [session.request(method, url, **options)]: when [options] carries a
    [method] of its own the argument is given twice, and Python raises a
    [TypeError] before anything is sent. *)
Definition _fetch_with_logging (url : string) (options : Options)
  : M World Body :=
  let method := match opt_method options with
                | Some m => m
                | None => "GET"
                end in
  try_except
    (match opt_method options with
     | Some _ => raise (OtherError (method_twice env))
     | None =>
         let! x := http {| req_method := method; req_url := url;
                           req_headers := opt_headers options;
                           req_json := opt_json options |} in
         match x with
         | NetworkFailure e => raise (ClientError e)
         | OtherFailure e => raise (OtherError e)
         | JsonReply _ data => ret data
         | GarbledReply _ _ json_error => raise (OtherError json_error)
         | TextReply status text _ =>
             ret (BObj {[ "success" := rbool (status <? 400);
                          "message" := rstr text ]})
         end
     end)
    (fun error => raise error).

Definition not_logged_in_msg : string := "Nie zalogowano".

(** [_auth_fetch] *)
Definition _auth_fetch (endpoint : string) (options : Options)
  : M World Body :=
  try_except
    (let! w := get in
     if negb (is_logged_in (svc w)) then
       ret (BObj (failure (rstr not_logged_in_msg)))
     else
       (if negb (str_truthy (base_url (svc w)))
        then set_base_url (Some default_url) else ret tt) ;;
       let! w := get in
       let url := str_of (base_url (svc w)) +:+ endpoint in
       let headers :=
         <["Content-Type" := PStr "application/json"]>
           (<["Authorization" := opt_pyval (auth_header (svc w))]>
              (opt_headers options)) in
       _fetch_with_logging url
         {| opt_method := opt_method options; opt_headers := headers;
            opt_json := opt_json options |})
    (fun error => ret (BObj (failure (rstr (exn_str error))))).

(** *** Login and logout *)

Definition login_ok_msg : string := "Logowanie pomyślne".

(** [login] *)
Definition login (phone' password' : string) (base_url' : option string)
  : M World Response :=
  try_except
    (let! w := get in
     let login_base_url := str_or base_url' (base_url (svc w)) in
     let login_base_url :=
       if negb (str_truthy login_base_url) then default_url
       else str_of login_base_url in
     initialize phone' password' (Some login_base_url) ;;
     let login_url := login_base_url +:+ "/api/driver2/status/check" in
     let! w := get in
     let headers : gmap string pyval :=
       {[ "Authorization" := opt_pyval (auth_header (svc w));
          "Content-Type" := PStr "application/json" ]} in
     let! response_data :=
       _fetch_with_logging login_url
         {| opt_method := Some "GET"; opt_headers := headers;
            opt_json := None |} in
     let! success := lift (body_get response_data "success") in
     if opt_rtruthy success then
       set_is_logged_in true ;;
       set_driver_id (Some 15) ;;
       save_credentials phone' password' (Some login_base_url) ;;
       ret ({[ "success" := rbool true;
               "message" := rstr login_ok_msg;
               "data" := RDict {[ "driver_id" := PInt 15;
                                  "phone" := PStr phone';
                                  "base_url" := PStr login_base_url ]} ]}
            : Response)
     else
       let! message := lift (body_get response_data "message") in
       ret (failure (get_or message "Błąd logowania")))
    (fun error =>
       ret (failure (rstr ("Błąd połączenia: " +:+ exn_str error)))).

(** [load_saved_credentials] *)
Definition load_saved_credentials : M World (option (string * string)) :=
  try_except
    (let! saved_phone := get_password "phone" in
     let! saved_password := get_password "password" in
     if str_truthy saved_phone && str_truthy saved_password then
       initialize (str_of saved_phone) (str_of saved_password) None ;;
       ret (Some (str_of saved_phone, str_of saved_password))
     else ret None)
    (fun _ => ret None).

(** [auto_login] *)
Definition auto_login : M World Response :=
  try_except
    (let! credentials := load_saved_credentials in
     match credentials with
     | Some (phone', password') => login phone' password' None
     | None => ret (failure (rstr "Brak zapisanych danych logowania"))
     end)
    (fun error =>
       ret (failure (rstr ("Błąd podczas autologowania: "
                           +:+ exn_str error)))).

(** [logout]: the logout call is attempted when logged in, the phone and
    password entries are deleted, the service is reset. *)
Definition logout : M World Response :=
  try_except
    (let! w := get in
     (if is_logged_in (svc w)
      then _auth_fetch "/api/driver2/logout" (post_options None) ;; ret tt
      else ret tt) ;;
     try_except
       (delete_password "phone" ;;
        delete_password "password")
       (fun _ => ret tt) ;;
     reset ;;
     ret ({[ "success" := rbool true;
             "message" := rstr "Wylogowano pomyślnie" ]} : Response))
    (fun _ =>
       ret ({[ "success" := rbool true;
               "message" := rstr "Wylogowano lokalnie" ]} : Response)).

(** *** Endpoints *)

(** [response['key']] once [response.get('key')] was seen to be there. *)
Definition item (o : option rval) : rval :=
  match o with
  | Some v => v
  | None => RVal PNone
  end.

Definition data_result (data : rval) : Response :=
  {[ "success" := rbool true; "data" := data ]}.

(** The profile built from the login data when the server sends none. *)
Definition fallback_profile (a : APIService) : gmap string pyval :=
  {[ "id" := match driver_id a with Some n => PInt n | None => PNone end;
     "phone" := opt_pyval (phone a);
     "name" := PStr ("Kierowca " +:+ str_of (phone a));
     "status" := PStr "online";
     "email" := PStr "";
     "vehicle_model" := PStr "Nieznany";
     "vehicle_plate" := PStr "Nieznany";
     "vehicle_type" := PStr "Standardowy";
     "license_number" := PStr "Nieznany";
     "license_expiry" := PStr "Nieznany";
     "total_orders" := PInt 0;
     "average_rating" := PInt 0;
     "experience_years" := PInt 0 ]}.

(** [get_driver_profile] *)
Definition get_driver_profile : M World Response :=
  try_except
    (let! response := _auth_fetch "/api/driver2/profile" no_options in
     let! success := lift (body_get response "success") in
     let! data := lift (body_get response "data") in
     let! status := lift (body_get response "status") in
     let! driver := lift (body_get response "driver") in
     if opt_rtruthy success && opt_rtruthy data then
       ret (data_result (item data))
     else if is_success_str status && opt_rtruthy data then
       ret (data_result (item data))
     else if opt_rtruthy driver then
       ret (data_result (item driver))
     else
       let! w := get in
       ret (data_result (RDict (fallback_profile (svc w)))))
    (fun error => ret (failure (rstr (exn_str error)))).

(** [get_profile] *)
Definition get_profile : M World Response := get_driver_profile.

Definition failure_with_data (message : string) : Response :=
  {[ "success" := rbool false; "message" := rstr message;
     "data" := RList [] ]}.

(** The branches of [check_order_pool] on the fetched response. *)
Definition normalize_pool (response : Body) : Res Response :=
  match body_get response "success" with
  | Raise e => Raise e
  | Ok success =>
      match body_get response "data", body_get response "status",
            body_get response "orders" with
      | Ok data, Ok status, Ok orders =>
          if opt_rtruthy success && is_list data then
            Ok (data_result (item data))
          else if is_success_str status && is_list orders then
            Ok (data_result (item orders))
          else if opt_rtruthy success && opt_rtruthy orders then
            Ok (data_result (item orders))
          else Ok (data_result (RList []))
      | Raise e, _, _ | _, Raise e, _ | _, _, Raise e => Raise e
      end
  end.

(** [check_order_pool] *)
Definition check_order_pool : M World Response :=
  try_except
    (let! response := _auth_fetch "/api/driver2/15/pool" no_options in
     lift (normalize_pool response))
    (fun error => ret (failure_with_data (exn_str error))).

(** The branches of [get_current_orders] on the fetched response. *)
Definition normalize_current (response : Body) : Res Response :=
  match body_get response "success" with
  | Raise e => Raise e
  | Ok success =>
      match body_get response "data", body_get response "status",
            body_get response "orders" with
      | Ok data, Ok status, Ok orders =>
          if opt_rtruthy success && is_list data then
            Ok (data_result (item data))
          else if is_success_str status && is_list orders then
            Ok (data_result (item orders))
          else Ok (data_result (RList []))
      | Raise e, _, _ | _, Raise e, _ | _, _, Raise e => Raise e
      end
  end.

(** [get_current_orders] *)
Definition get_current_orders : M World Response :=
  try_except
    (let! response := _auth_fetch "/api/driver2/orders/current" no_options in
     lift (normalize_current response))
    (fun error => ret (failure_with_data (exn_str error))).

(** The shape shared by the order actions and the status and location
    updates: the given result on success, else the server's message or
    [default]. *)
Definition action_result (response : Body) (ok : Response)
    (default : string) : Res Response :=
  match body_get response "success" with
  | Raise e => Raise e
  | Ok success =>
      if opt_rtruthy success then Ok ok
      else match body_get response "message" with
           | Raise e => Raise e
           | Ok message => Ok (failure (get_or message default))
           end
  end.

Definition only_success : Response := {[ "success" := rbool true ]}.

(** [accept_order] *)
Definition accept_order (order_id : Z) : M World Response :=
  try_except
    (let! response :=
       _auth_fetch ("/api/driver2/orders/" +:+ pretty order_id +:+ "/accept")
                   (post_options None) in
     lift (action_result response
             {[ "success" := rbool true; "order_id" := RVal (PInt order_id) ]}
             "Błąd akceptacji"))
    (fun error => ret (failure (rstr (exn_str error)))).

(** [start_order] *)
Definition start_order (order_id : Z) : M World Response :=
  try_except
    (let! response :=
       _auth_fetch ("/api/driver2/orders/" +:+ pretty order_id +:+ "/start")
                   (post_options None) in
     lift (action_result response only_success "Błąd rozpoczęcia"))
    (fun error => ret (failure (rstr (exn_str error)))).

(** [complete_order] *)
Definition complete_order (order_id : Z) : M World Response :=
  try_except
    (let! response :=
       _auth_fetch ("/api/driver2/orders/" +:+ pretty order_id +:+ "/complete")
                   (post_options None) in
     lift (action_result response only_success "Błąd zakończenia"))
    (fun error => ret (failure (rstr (exn_str error)))).

(** [cancel_order] *)
Definition cancel_order (order_id : Z) (reason : string)
  : M World Response :=
  try_except
    (let! response :=
       _auth_fetch ("/api/driver2/orders/" +:+ pretty order_id +:+ "/cancel")
                   (post_options (Some {[ "reason" := PStr reason ]})) in
     lift (action_result response
             {[ "success" := rbool true; "reason" := rstr reason ]}
             "Błąd anulowania"))
    (fun error => ret (failure (rstr (exn_str error)))).

(** [update_driver_status] *)
Definition update_driver_status (status : string) : M World Response :=
  try_except
    (let! response :=
       _auth_fetch "/api/driver2/status"
                   (post_options (Some {[ "status" := PStr status ]})) in
     lift (action_result response only_success "Błąd aktualizacji statusu"))
    (fun error => ret (failure (rstr (exn_str error)))).

(** [update_location] *)
Definition update_location (latitude longitude : Q) : M World Response :=
  try_except
    (let! response :=
       _auth_fetch "/api/driver2/location"
                   (post_options (Some {[ "latitude" := PFloat latitude;
                                          "longitude" := PFloat longitude ]})) in
     lift (action_result response only_success
             "Błąd aktualizacji lokalizacji"))
    (fun error => ret (failure (rstr (exn_str error)))).

(** [get_order_details] *)
Definition get_order_details (order_id : Z) : M World Response :=
  try_except
    (let! response :=
       _auth_fetch ("/api/driver2/orders/" +:+ pretty order_id) no_options in
     let! success := lift (body_get response "success") in
     if opt_rtruthy success then
       let! data := lift (body_get response "data") in
       ret (data_result (item data))
     else ret (failure (rstr "Zlecenie nie znalezione")))
    (fun error => ret (failure (rstr (exn_str error)))).

(** The stored-order details used when the server sends none. *)
Definition fallback_order (order_id : Z) : gmap string pyval :=
  list_to_map
    [ ("id", PInt order_id);
      ("pickup_address", PStr "ul. Magazynowa 1");
      ("destination_address", PStr "ul. Docelowa 2");
      ("price", PStr "30.00");
      ("distance", PFloat (Qmake 15 2));
      ("estimated_time", PInt 20);
      ("created_at", PStr "2024-05-20T12:00:00Z");
      ("order_type", PStr "VIP");
      ("pickup_latitude", PFloat (Qmake 511 10));
      ("pickup_longitude", PFloat (Qmake 222 10));
      ("destination_latitude", PFloat (Qmake 512 10));
      ("destination_longitude", PFloat (Qmake 223 10));
      ("notes", PStr "Uwagi do zlecenia");
      ("payment_method", PStr "card");
      ("customer_name", PStr "Anna Nowak");
      ("customer_phone", PStr "987654321") ].

(** [get_order_storage_details] *)
Definition get_order_storage_details (order_id : Z) : M World Response :=
  try_except
    (let! response :=
       _auth_fetch ("/api/driver2/order_storage/" +:+ pretty order_id)
                   no_options in
     let! success := lift (body_get response "success") in
     if opt_rtruthy success then
       let! data := lift (body_get response "data") in
       ret (data_result (item data))
     else ret (data_result (RDict (fallback_order order_id))))
    (fun error => ret (failure (rstr (exn_str error)))).

(** [check_connection] *)
Definition check_connection : M World Response :=
  try_except
    (let! up := check_api_status in
     if (up : bool) then
       ret ({[ "success" := rbool true; "status" := rstr "connected" ]}
            : Response)
     else
       ret ({[ "success" := rbool false; "status" := rstr "disconnected" ]}
            : Response))
    (fun e => _handle_error e "connection_check").

(** *** The operations, as data *)

(** The endpoint methods that go through [_auth_fetch] and are named by
    the specification's authenticated operations. *)
Inductive AuthCall : Type :=
| CheckOrderPool
| GetCurrentOrders
| AcceptOrder (order_id : Z)
| StartOrder (order_id : Z)
| CompleteOrder (order_id : Z)
| CancelOrder (order_id : Z) (reason : string)
| UpdateLocation (latitude longitude : Q)
| UpdateDriverStatus (status : string)
| GetDriverProfile.

Definition run_auth (c : AuthCall) : M World Response :=
  match c with
  | CheckOrderPool => check_order_pool
  | GetCurrentOrders => get_current_orders
  | AcceptOrder i => accept_order i
  | StartOrder i => start_order i
  | CompleteOrder i => complete_order i
  | CancelOrder i reason => cancel_order i reason
  | UpdateLocation la lo => update_location la lo
  | UpdateDriverStatus st => update_driver_status st
  | GetDriverProfile => get_driver_profile
  end.

(** The operations of the client that answer with a result dictionary
    built by the endpoint code itself. *)
Inductive Operation : Type :=
| Login (phone' password' : string) (base_url' : option string)
| AutoLogin
| Logout
| Authenticated (c : AuthCall)
| GetOrderDetails (order_id : Z)
| GetOrderStorageDetails (order_id : Z).

Definition perform (op : Operation) : M World Response :=
  match op with
  | Login ph pw url => login ph pw url
  | AutoLogin => auto_login
  | Logout => logout
  | Authenticated c => run_auth c
  | GetOrderDetails i => get_order_details i
  | GetOrderStorageDetails i => get_order_storage_details i
  end.

End WithEnv.

(** The world once [req] was sent. *)
Definition logged (req : Request) (w : World) : World :=
  mkWorld (svc w) (keyring w) (keyring_ops w) (req :: http_log w) (sleeps w).

(** The world after [k] failed attempts of [req] that were each followed
    by a wait, the first being attempt number [a]. *)
Fixpoint after_failures (req : Request) (a k : nat) (w : World) : World :=
  match k with
  | O => w
  | S k' =>
      after_failures req (S a) k'
        (mkWorld (svc w) (keyring w) (keyring_ops w) (req :: http_log w)
                 (backoff (retry_delay (svc w)) a :: sleeps w))
  end.

(** What [_fetch_with_logging] makes of an exchange, for a call whose
    options name no method. *)
Definition fetched (x : Exchange) : Res Body :=
  match x with
  | NetworkFailure e => Raise (ClientError e)
  | OtherFailure e => Raise (OtherError e)
  | JsonReply _ data => Ok data
  | GarbledReply _ _ json_error => Raise (OtherError json_error)
  | TextReply status text _ =>
      Ok (BObj {[ "success" := rbool (status <? 400);
                  "message" := rstr text ]})
  end.

(** What [_auth_fetch] makes of it then, when logged in. *)
Definition auth_fetched (x : Exchange) : Body :=
  match fetched x with
  | Ok b => b
  | Raise e => BObj (failure (rstr (exn_str e)))
  end.

(** The world once [_auth_fetch] has put the fallback URL in place of a
    missing base URL. *)
Definition with_fallback_url (w : World) : World :=
  if negb (str_truthy (base_url (svc w)))
  then snd (set_base_url (Some default_url) w)
  else w.

(** The request [_auth_fetch] sends when logged in and the options name
    no method. *)
Definition auth_request (w : World) (endpoint : string) (options : Options)
  : Request :=
  {| req_method := match opt_method options with
                   | Some m => m
                   | None => "GET"
                   end;
     req_url := str_of (base_url (svc (with_fallback_url w))) +:+ endpoint;
     req_headers :=
       <["Content-Type" := PStr "application/json"]>
         (<["Authorization" := opt_pyval (auth_header (svc w))]>
            (opt_headers options));
     req_json := opt_json options |}.

(** Endpoint and options of each authenticated call. *)
Definition endpoint_of (c : AuthCall) : string :=
  match c with
  | CheckOrderPool => "/api/driver2/15/pool"
  | GetCurrentOrders => "/api/driver2/orders/current"
  | AcceptOrder i => "/api/driver2/orders/" +:+ pretty i +:+ "/accept"
  | StartOrder i => "/api/driver2/orders/" +:+ pretty i +:+ "/start"
  | CompleteOrder i => "/api/driver2/orders/" +:+ pretty i +:+ "/complete"
  | CancelOrder i _ => "/api/driver2/orders/" +:+ pretty i +:+ "/cancel"
  | UpdateLocation _ _ => "/api/driver2/location"
  | UpdateDriverStatus _ => "/api/driver2/status"
  | GetDriverProfile => "/api/driver2/profile"
  end.

Definition options_of (c : AuthCall) : Options :=
  match c with
  | CheckOrderPool | GetCurrentOrders | GetDriverProfile => no_options
  | AcceptOrder _ | StartOrder _ | CompleteOrder _ => post_options None
  | CancelOrder _ reason => post_options (Some {[ "reason" := PStr reason ]})
  | UpdateLocation la lo =>
      post_options (Some {[ "latitude" := PFloat la; "longitude" := PFloat lo ]})
  | UpdateDriverStatus st => post_options (Some {[ "status" := PStr st ]})
  end.

(** A Hoare triple for code that may raise: from a state satisfying [P],
    a returned value and the state reached satisfy [Q], a raised exception
    and the state reached satisfy [E]. *)
Definition hoare {S A} (P : S -> Prop) (m : M S A)
    (Q : A -> S -> Prop) (E : Exn -> S -> Prop) : Prop :=
  forall s, P s -> match m s with
                   | (Ok a, s') => Q a s'
                   | (Raise e, s') => E e s'
                   end.

Definition anything {A} : A -> World -> Prop := fun _ _ => True.
Definition nothing : Exn -> World -> Prop := fun _ _ => False.
Definition always : World -> Prop := fun _ => True.

(** The URL [login] works with: the one given, else the service's, else
    the default. *)
Definition login_url_of (url : option string) (w : World) : string :=
  let u := str_or url (base_url (svc w)) in
  if negb (str_truthy u) then default_url else str_of u.

(** [s.startswith('http://') or s.startswith('https://')] *)
Definition has_scheme (s : string) : bool :=
  startswith s "http://" || startswith s "https://".

(** The input of [change_base_url], stripped and without one trailing
    slash. *)
Definition chopped (u : string) : string :=
  if endswith (strip u) "/" then drop_last (strip u) else strip u.

(** The URL [change_base_url] stores. *)
Definition formatted_url (u : string) : string :=
  if has_scheme (chopped u) then chopped u else "https://" +:+ chopped u.

(** The [message] of a fetched body, when it has one, is a string. *)
Definition body_message_ok (b : Body) : Prop :=
  forall r m, b = BObj r -> r !! "message" = Some m -> exists s, m = rstr s.

(** Sample collaborators: a server that fails [n] times, then answers
    [x]. *)
Definition flaky_env (n : nat) (x : Exchange) : Env :=
  {| b64encode := fun s => s; fmt := fun _ => "";
     server := fun i _ => if (i <? n)%nat then NetworkFailure "timeout" else x;
     kr_fault := fun _ => false; now := inject_Z 0;
     method_twice := "request() got multiple values for argument 'method'" |}.

(** What an authenticated call answers when [_auth_fetch] hands it the
    failure [failure (rstr m)] (not logged in, or the fetch raised). *)
Definition on_failure (a : APIService) (c : AuthCall) (m : string)
  : Response :=
  match c with
  | CheckOrderPool | GetCurrentOrders => data_result (RList [])
  | GetDriverProfile => data_result (RDict (fallback_profile a))
  | _ => failure (rstr m)
  end.

(** The result carries a boolean [success] and, when it is false, a
    [message] entry. *)
Definition normalized (r : Response) : Prop :=
  exists b : bool, r !! "success" = Some (rbool b)
    /\ (b = false -> is_Some (r !! "message")).

(** The [message] entry, when there is one, is a string. *)
Definition message_is_string (r : Response) : Prop :=
  forall m, r !! "message" = Some m -> exists s, m = rstr s.

(** The server only ever sends strings as [message]. *)
Definition string_messages (env : Env) : Prop :=
  forall n req status r m,
    server env n req = JsonReply status (BObj r) ->
    r !! "message" = Some m -> exists s, m = rstr s.

(** A normalized result whose message is a string when the server's
    messages are. *)
Definition good (env : Env) (r : Response) : Prop :=
  normalized r /\ (string_messages env -> message_is_string r).

Definition body_ok (env : Env) (b : Body) : Prop :=
  string_messages env -> body_message_ok b.

(** The credential store never fails. *)
Definition store_ok (env : Env) : Prop := forall n, kr_fault env n = false.

(** Sample collaborators: a server that always answers [x]. *)
Definition env_of (x : Exchange) : Env :=
  {| b64encode := fun s => s; fmt := fun _ => "";
     server := fun _ _ => x; kr_fault := fun _ => false;
     now := inject_Z 0;
     method_twice := "request() got multiple values for argument 'method'" |}.

Definition ok_body : Body := BObj {[ "success" := rbool true ]}.
Definition ok_reply : Exchange := JsonReply 200 ok_body.
Definition error_reply : Exchange :=
  JsonReply 500 (BObj {[ "success" := rbool false;
                         "message" := rstr "Internal Server Error" ]}).

Definition logged_in_world : World :=
  {| svc := mkAPI true (Some "https://taxi.example") (Some "Basic abc")
                  (Some "+48111222333") (Some "pw") (Some 15) None 3
                  (inject_Z 1) 30 None 0;
     keyring := ∅; keyring_ops := 0%nat; http_log := []; sleeps := [] |}.

End Api.

(** ** Further shapes of the API client

    Named requests, results and states that the further properties of
    [APIService] are stated with. *)

Module Shapes.

Import Api.

(** One of the generic verbs. *)
Inductive Verb : Type :=
| VGet (endpoint : string) (params : gmap string pyval)
| VPost (endpoint : string) (data : option (gmap string pyval))
| VPut (endpoint : string) (data : option (gmap string pyval))
| VDelete (endpoint : string).

Definition verb_endpoint (v : Verb) : string :=
  match v with
  | VGet e _ | VPost e _ | VPut e _ | VDelete e => e
  end.

Definition run_verb (env : Env) (v : Verb) : M World Body :=
  match v with
  | VGet e params => get_ env e params
  | VPost e data => post env e data
  | VPut e data => put env e data
  | VDelete e => delete_ env e
  end.

(** The dictionary [_handle_error] returns. *)
Definition error_report (env : Env) (text endpoint : string) : Response :=
  {[ "success" := rbool false; "error" := rstr text;
     "endpoint" := rstr endpoint; "timestamp" := RVal (PFloat (now env)) ]}.

(** The dictionaries [check_connection] answers with. *)
Definition connection_status (up : bool) : Response :=
  if up then {[ "success" := rbool true; "status" := rstr "connected" ]}
  else {[ "success" := rbool false; "status" := rstr "disconnected" ]}.

(** The world after [k] requests [req] and the waits between them, the
    first attempt being number [a]; the service is [a']. *)
Definition after_attempts (req : Request) (a k : nat) (w : World) : World :=
  mkWorld (svc w) (keyring w) (keyring_ops w)
          (repeat req k ++ http_log w)
          (rev (map (backoff (retry_delay (svc w))) (seq a (k - 1))) ++ sleeps w).

(** The service after [reset]: the session fields are cleared, the retry
    settings and the error counters stay. *)
Definition reset_service (a : APIService) : APIService :=
  mkAPI false None None None None None None (max_retries a) (retry_delay a)
        (timeout a) (last_error a) (error_count a).

Definition logged_out_result : Response :=
  {[ "success" := rbool true; "message" := rstr "Wylogowano pomyślnie" ]}.

(** [f"{phone}:{password}"] encoded, as [initialize] builds the header. *)
Definition basic_auth (env : Env) (ph pw : string) : string :=
  "Basic " +:+ b64encode env (ph +:+ ":" +:+ pw).

(** The request [login] prepares. *)
Definition login_request (env : Env) (ph pw url : string) : Request :=
  {| req_method := "GET";
     req_url := url +:+ "/api/driver2/status/check";
     req_headers := {[ "Authorization" := PStr (basic_auth env ph pw);
                       "Content-Type" := PStr "application/json" ]};
     req_json := None |}.

(** Whether [login] would take the exchange for a successful login, were
    its request sent: a body with a true [success], which a reply that is
    not JSON has when its status is below 400. *)
Definition login_accepts (x : Exchange) : bool :=
  match fetched x with
  | Ok b => match body_get b "success" with
            | Ok s => opt_rtruthy s
            | Raise _ => false
            end
  | Raise _ => false
  end.

(** The calls that change something on the server: the order actions and
    the location and status updates. *)
Definition is_action (c : AuthCall) : bool :=
  match c with
  | CheckOrderPool | GetCurrentOrders | GetDriverProfile => false
  | _ => true
  end.

(** A store holding the credentials of a driver. *)
Definition saved_world : World :=
  {| svc := new_service;
     keyring := {[ "phone" := "+48111222333"; "password" := "pw" ]};
     keyring_ops := 0%nat; http_log := []; sleeps := [] |}.

End Shapes.

(** ** The books of the display *)

Module Display.

Import Reconciler.

(** How many of the events satisfy [p]. *)
Fixpoint count_events (p : UIEvent -> bool) (l : list UIEvent) : nat :=
  match l with
  | [] => 0
  | e :: l' => (if p e then 1 else 0) + count_events p l'
  end.

Definition is_open (e : UIEvent) : bool :=
  match e with DialogOpen _ => true | _ => false end.
Definition is_dismiss (e : UIEvent) : bool :=
  match e with DialogDismiss _ => true | _ => false end.
Definition is_sound (e : UIEvent) : bool :=
  match e with PlaySound => true | _ => false end.
Definition is_toast (msg : string) (e : UIEvent) : bool :=
  match e with Toast m => bool_decide (m = msg) | _ => false end.

(** Some status fetch of the inputs succeeded. *)
Definition status_fetched (inputs : list Input) : bool :=
  existsb (fun i => match i with StatusFetched true => true | _ => false end)
          inputs.

(** The events of showing [first] as dialog number [n]. *)
Definition present_events (sound : bool) (n : nat) (first : Order)
  : list UIEvent :=
  (if sound then [PlaySound] else [])
  ++ [DialogOpen {| dialog_id := n; order_data := first |};
      Toast new_order_msg].

(** The books of the display: dialogs created, opened and dismissed,
    toasts and sounds. *)
Definition accounted (sound : bool) (s : MapScreen) : Prop :=
  let evs := events s in
  dialogs_created s = count_events is_open evs
  /\ count_events is_open evs
     = (count_events is_dismiss evs + length (on_display s))%nat
  /\ count_events (is_toast new_order_msg) evs = count_events is_open evs
  /\ count_events (is_toast vanished_msg) evs = count_events is_dismiss evs
  /\ count_events is_sound evs
     = (if sound then count_events is_open evs else 0%nat).

(** An order whose status is a number. *)
Definition order9 : Order := {[ "id" := PInt 9; "status" := PInt 1 ]}.

End Display.

(** ** The reject button: [OrderDialog.reject_order] *)

Module Decision.

Import Reconciler.

Definition rejected_msg : string := "Zlecenie odrzucone".

(** The dialog leaves the display: [MDDialog.dismiss]. *)
Definition dismiss (d : Dialog) : M MapScreen unit :=
  modify (fun s =>
    {| sound_service := sound_service s; pool_orders := pool_orders s;
       driver_status := driver_status s; show_pool_order := show_pool_order s;
       current_pool_order := current_pool_order s;
       order_dialog := order_dialog s; on_display := without d (on_display s);
       dialogs_created := dialogs_created s;
       events := DialogDismiss d :: events s |}).

(** [MapScreen.reject_order_from_pool]: the id is printed, which raises
    when the order has none, and the toast is shown. *)
Definition reject_order_from_pool (order_data : Order) : M MapScreen unit :=
  match order_data !! "id" with
  | None => raise (KeyError "id")
  | Some _ => toast rejected_msg
  end.

(** [OrderDialog.reject_order], the dialog being the one the screen
    opened: it dismisses itself and calls the screen back. *)
Definition reject_order (d : Dialog) : M MapScreen unit :=
  dismiss d ;;
  reject_order_from_pool (order_data d).

End Decision.

(** ** The current orders: [MapScreen.fetch_current_orders] *)

Module CurrentOrders.

Import Reconciler.

(** The fields of [MapScreen] that [fetch_current_orders] reads or
    writes, and the events emitted so far (latest first). *)
Record OrdersView : Type := {
  has_sound : bool;
  current_orders : rval;
  is_loading : bool;
  emitted : list UIEvent
}.

(** [MapScreen.__init__] *)
Definition fresh (with_sound : bool) : OrdersView :=
  {| has_sound := with_sound; current_orders := RList [];
     is_loading := false; emitted := [] |}.

Definition set_is_loading (b : bool) : M OrdersView unit :=
  modify (fun s => {| has_sound := has_sound s; current_orders := current_orders s;
                      is_loading := b; emitted := emitted s |}).

Definition set_current_orders (v : rval) : M OrdersView unit :=
  modify (fun s => {| has_sound := has_sound s; current_orders := v;
                      is_loading := is_loading s; emitted := emitted s |}).

Definition announce (e : UIEvent) : M OrdersView unit :=
  modify (fun s => {| has_sound := has_sound s; current_orders := current_orders s;
                      is_loading := is_loading s;
                      emitted := e :: emitted s |}).

(** [len(v)] *)
Definition py_len (v : rval) : Res nat :=
  match v with
  | RList l => Ok (length l)
  | RDict d => Ok (size d)
  | RVal (PStr s) => Ok (str_len s)
  | RVal _ => Raise (OtherError "object has no len()")
  end.

(** [response.get('data', [])] *)
Definition data_or_empty (response : Response) : rval :=
  match response !! "data" with
  | Some v => v
  | None => RList []
  end.

(** [fetch_current_orders]: the [try] block with its [except], then the
    [finally] clause. *)
Definition fetch_current_orders (reply : ApiReply) : M OrdersView unit :=
  try_except
    (set_is_loading true ;;
     let! response :=
       match reply with
       | ApiRaised e => raise e
       | ApiReturned r => ret r
       end in
     if get_truthy response "success" then
       let new_orders := data_or_empty response in
       let! n := lift (py_len new_orders) in
       let! s := get in
       let! m := lift (py_len (current_orders s)) in
       (if (m <? n)%nat then
          (if has_sound s then announce PlaySound else ret tt) ;;
          announce (Toast new_order_msg)
        else ret tt) ;;
       set_current_orders new_orders
     else ret tt)
    (fun _ => ret tt) ;;
  set_is_loading false.

(** The events of one fetch, oldest first. *)
Definition fetch_events (reply : ApiReply) (s : OrdersView) : list UIEvent :=
  let s' := snd (fetch_current_orders reply s) in
  rev (take (length (emitted s') - length (emitted s)) (emitted s')).

End CurrentOrders.

(** * Properties *)

(** ** The reconciler *)

(** Closed goals: a conjunction of equations, each settled by evaluation. *)
Ltac by_evaluation :=
  cbv zeta;
  repeat match goal with |- _ /\ _ => split end;
  vm_compute; reflexivity.

Module ReconcilerProps.

Import Reconciler.

Lemma take_new {A} (pre l : list A) :
  take (length (pre ++ l) - length l) (pre ++ l) = pre.
Proof.
  rewrite length_app.
  replace (length pre + length l - length l)%nat with (length pre) by lia.
  apply take_app_length.
Qed.

Lemma poll_events_of reply s pre :
  events (snd (check_order_pool reply s)) = pre ++ events s ->
  poll_events reply s = rev pre.
Proof. intros H. unfold poll_events. rewrite H. by rewrite take_new. Qed.

(** The four ways a poll can end: nothing changes (offline, failed or
    unsuccessful fetch, exception), the snapshot is stored without an
    event, the shown candidate vanishes, or a new candidate is shown. *)
Lemma check_order_pool_cases reply s :
  let s' := snd (check_order_pool reply s) in
  (s' = s)
  \/ (exists r, reply = ApiReturned r /\ get_truthy r "success" = true
        /\ driver_status s <> "offline"
        /\ s' = with_pool (snapshot_of r) s)
  \/ (exists r cur, reply = ApiReturned r /\ get_truthy r "success" = true
        /\ driver_status s <> "offline"
        /\ show_pool_order s = true /\ current_pool_order s = Some cur
        /\ any_same_id cur (snapshot_of r) = Ok false
        /\ s' = vanish s)
  \/ (exists r first rest, reply = ApiReturned r
        /\ get_truthy r "success" = true
        /\ driver_status s <> "offline"
        /\ show_pool_order s = false
        /\ acceptable_orders (snapshot_of r) = Ok (first :: rest)
        /\ s' = present first (snapshot_of r) s).
Proof.
  unfold check_order_pool, check_order_pool_body, try_except, bind, get,
    lift, ret, raise.
  simpl.
  case_bool_decide as Hoff; [by left|].
  destruct reply as [e|r]; [by left|].
  destruct (get_truthy r "success") eqn:Hs; [|by left].
  destruct (show_pool_order s) eqn:Hshow; simpl.
  - destruct (current_pool_order s) as [cur|] eqn:Hcur; simpl.
    + destruct (dict_truthy cur) eqn:Ht; simpl.
      * destruct (any_same_id cur (snapshot_of r)) as [[|]|e] eqn:Hany; simpl.
        -- right; left. exists r. repeat split; try done.
           unfold with_pool. destruct (snapshot_of r); done.
        -- destruct (cur !! "id") as [k|] eqn:Hk; simpl; [|by left].
           right; right; left. exists r, cur. repeat split; done.
        -- by left.
      * right; left. exists r. repeat split; try done.
        unfold with_pool. destruct (snapshot_of r); done.
    + right; left. exists r. repeat split; try done.
      unfold with_pool. destruct (snapshot_of r); done.
  - destruct (snapshot_of r) as [|o l] eqn:Hsnap; simpl.
    + right; left. exists r. rewrite Hsnap. repeat split; done.
    + destruct (acceptable_orders (o :: l)) as [[|first rest]|e] eqn:Hacc;
        simpl.
      * right; left. exists r. rewrite Hsnap. repeat split; done.
      * right; right; right. exists r, first, rest. rewrite Hsnap.
        repeat split; try done.
        unfold present, bind. by destruct (sound_service s).
      * by left.
Qed.

Lemma any_same_id_absent (cur : Order) k l :
  cur !! "id" = Some k -> id_absent k l = true ->
  any_same_id cur l = Ok false.
Proof.
  intros Hk. induction l as [|o l IH]; [done|].
  unfold any_same_id; fold any_same_id. simpl.
  destruct (o !! "id") as [v|]; [|done]. rewrite Hk.
  intros [Hv Hl]%andb_true_iff. apply negb_true_iff in Hv. rewrite Hv. auto.
Qed.

Lemma any_same_id_present (cur : Order) k l :
  cur !! "id" = Some k -> id_present k l = true ->
  any_same_id cur l <> Ok false.
Proof.
  intros Hk. induction l as [|o l IH]; [done|].
  unfold any_same_id; fold any_same_id. simpl.
  destruct (o !! "id") as [v|]; [|done]. rewrite Hk.
  destruct (py_eq v k); [done|]. simpl. auto.
Qed.

Lemma has_id_truthy (cur : Order) k :
  cur !! "id" = Some k -> dict_truthy cur = true.
Proof.
  intros Hk. unfold dict_truthy. case_bool_decide as Hsz; [|done].
  apply map_size_empty_iff in Hsz. subst. by rewrite lookup_empty in Hk.
Qed.

Lemma check_order_pool_vanish s r cur k :
  driver_status s <> "offline" -> get_truthy r "success" = true ->
  show_pool_order s = true -> current_pool_order s = Some cur ->
  cur !! "id" = Some k -> any_same_id cur (snapshot_of r) = Ok false ->
  snd (check_order_pool (ApiReturned r) s) = vanish s.
Proof.
  intros Hoff Hs Hshow Hcur Hk Hany.
  pose proof (has_id_truthy cur k Hk) as Ht.
  unfold check_order_pool, check_order_pool_body, try_except, bind, get,
    lift, ret.
  simpl. rewrite bool_decide_eq_false_2 by done.
  rewrite Hs, Hshow, Hcur. simpl. rewrite Ht, Hany. simpl. rewrite Hk. done.
Qed.

Lemma events_vanish s : events (vanish s) = rev (vanish_events s) ++ events s.
Proof.
  unfold vanish, vanish_events, bind. simpl. by destruct (order_dialog s).
Qed.

Lemma inv_init sound : inv (init sound).
Proof. left. by repeat split. Qed.

Lemma without_self d : without d [d] = [].
Proof.
  unfold without. rewrite filter_cons_False; [done|]. intros H; by apply H.
Qed.

Lemma idle_vanish d s : showing d s -> idle (vanish s).
Proof.
  intros (Hshow & Hcur & Hdlg & Hdisp & _). unfold vanish, bind. simpl.
  rewrite Hdlg. simpl. rewrite Hdisp. repeat split; try done.
  apply without_self.
Qed.

Lemma inv_step i s : inv s -> inv (step i s).
Proof.
  intros Hinv. destruct i as [reply|ok]; simpl.
  - destruct (check_order_pool_cases reply s)
      as [->|[(r & _ & _ & _ & ->)
         |[(r & cur & _ & _ & _ & Hshow & _ & _ & ->)
         |(r & first & rest & _ & _ & Hoff & Hshow & _ & ->)]]]; [done| | |].
    + destruct Hinv as [?|[d ?]]; [left|right; exists d]; done.
    + destruct Hinv as [(? & _)|[d Hd]]; [congruence|].
      left. by eapply idle_vanish.
    + destruct Hinv as [(_ & _ & _ & Hdisp)|[d (? & _)]]; [|congruence].
      right. eexists. unfold present, bind. destruct (sound_service s); simpl;
        rewrite Hdisp; repeat split; done.
  - destruct ok; simpl; [|done].
    destruct Hinv as [?|[d (? & ? & ? & ? & _)]]; [left|right; exists d]; done.
Qed.

Lemma inv_run inputs s : inv s -> inv (run inputs s).
Proof.
  revert s. induction inputs as [|i inputs IH]; intros s Hs; [done|].
  simpl. apply IH. by apply inv_step.
Qed.

(** While a candidate is shown, a poll either emits nothing and leaves the
    candidate and its dialog in place, or is the vanishing of the
    candidate. *)
Lemma shown_poll reply s d :
  showing d s ->
  let s' := step (Tick reply) s in
  (poll_events reply s = [] /\ show_pool_order s' = true
   /\ current_pool_order s' = current_pool_order s
   /\ order_dialog s' = order_dialog s /\ on_display s' = on_display s)
  \/ (poll_events reply s = [DialogDismiss d; Toast vanished_msg]
      /\ idle s').
Proof.
  intros Hd. pose proof Hd as (Hshow & Hcur & Hdlg & Hdisp & Hoff). simpl.
  destruct (check_order_pool_cases reply s)
    as [Heq|[(r & _ & _ & _ & Heq)
       |[(r & cur & _ & _ & _ & _ & _ & _ & Heq)
       |(r & first & rest & _ & _ & _ & Hshow' & _)]]]; [| | |congruence].
  - left. rewrite (poll_events_of reply s []) by (by rewrite Heq).
    by rewrite Heq.
  - left. rewrite (poll_events_of reply s []) by (by rewrite Heq).
    by rewrite Heq.
  - right. rewrite (poll_events_of reply s (rev (vanish_events s)))
      by (rewrite Heq; apply events_vanish).
    rewrite rev_involutive, Heq. unfold vanish_events. rewrite Hdlg.
    split; [done|]. by eapply idle_vanish.
Qed.

(** After a poll the stored snapshot is the old one or the fetched one,
    never a mixture; the fetched one is not stored when the poll ends by
    the vanishing of the candidate. *)
Lemma pool_orders_after_poll reply s :
  let s' := step (Tick reply) s in
  pool_orders s' = pool_orders s
  \/ exists r, reply = ApiReturned r /\ pool_orders s' = snapshot_of r.
Proof.
  simpl.
  destruct (check_order_pool_cases reply s)
    as [->|[(r & -> & _ & _ & ->)
       |[(r & cur & _ & _ & _ & _ & _ & _ & ->)
       |(r & first & rest & -> & _ & _ & _ & _ & ->)]]].
  - by left.
  - right. by exists r.
  - left. unfold vanish, bind. simpl. by destruct (order_dialog s).
  - right. exists r. unfold present, bind. by destruct (sound_service s).
Qed.

(** C1, as amended. Starting from a fresh screen, after any sequence of polls and
    status fetches: at most one order dialog is on the display; while a
    candidate is shown a poll emits no new-order event and leaves the
    candidate in place unless it is the vanishing of that candidate; and
    when the poll's successful response carries a snapshot all of whose
    orders have ids different from the shown candidate's, the poll emits
    the dismissal of the dialog and exactly one "no longer available"
    toast, and the screen is idle afterwards. *)
Theorem single_candidate (sound : bool) (inputs : list Input)
    (reply : ApiReply) :
  let s := run inputs (init sound) in
  let s' := step (Tick reply) s in
  (length (on_display s) <= 1)%nat
  /\ (show_pool_order s = true ->
      exists d, showing d s /\
        ((poll_events reply s = [] /\ show_pool_order s' = true
          /\ current_pool_order s' = current_pool_order s
          /\ order_dialog s' = order_dialog s
          /\ on_display s' = on_display s)
         \/ (poll_events reply s = [DialogDismiss d; Toast vanished_msg]
             /\ idle s')))
  /\ (forall r cur k,
        reply = ApiReturned r -> get_truthy r "success" = true ->
        show_pool_order s = true -> current_pool_order s = Some cur ->
        cur !! "id" = Some k -> id_absent k (snapshot_of r) = true ->
        exists d, order_dialog s = Some d /\ order_data d = cur
          /\ poll_events reply s = [DialogDismiss d; Toast vanished_msg]
          /\ idle s').
Proof.
  intros s s'. pose proof (inv_run inputs (init sound) (inv_init sound)) as Hinv.
  fold s in Hinv. split; [|split].
  - destruct Hinv as [(_ & _ & _ & ->)|[d (_ & _ & _ & -> & _)]]; simpl; lia.
  - intros Hshow. destruct Hinv as [(? & _)|[d Hd]]; [congruence|].
    exists d. split; [done|]. by apply shown_poll.
  - intros r cur k -> Hs Hshow Hcur Hk Habs.
    destruct Hinv as [(? & _)|[d Hd]]; [congruence|].
    pose proof Hd as (_ & Hcur' & Hdlg & _ & Hoff).
    exists d. split; [done|]. split; [congruence|].
    assert (Heq : snd (check_order_pool (ApiReturned r) s) = vanish s).
    { apply (check_order_pool_vanish s r cur k); try done.
      by eapply any_same_id_absent. }
    split.
    + rewrite (poll_events_of _ s (rev (vanish_events s)))
        by (rewrite Heq; apply events_vanish).
      rewrite rev_involutive. unfold vanish_events. by rewrite Hdlg.
    + unfold s'. simpl. rewrite Heq. by eapply idle_vanish.
Qed.

Lemma single_candidate_witness :
  let s := run [StatusFetched true; Tick (ApiReturned (pool_with [order7]))]
               (init true) in
  exists d, order_data d = order7
    /\ poll_events (ApiReturned (pool_with [order8])) s
       = [DialogDismiss d; Toast vanished_msg].
Proof.
  intros s.
  destruct (single_candidate true
              [StatusFetched true; Tick (ApiReturned (pool_with [order7]))]
              (ApiReturned (pool_with [order8]))) as (_ & _ & H).
  destruct (H (pool_with [order8]) order7 (PInt 7))
    as (d & _ & Hd & Hev & _); try (vm_compute; reflexivity).
  exists d. split; [exact Hd | exact Hev].
Defined.

(** C6. If after a poll a candidate is shown whose id is carried by some
    order of the polled snapshot, polling again with the same response
    emits no event at all and leaves the candidate, its dialog and the
    display as they are. *)
Theorem repoll_is_silent (s : MapScreen) (r : Response) (cur : Order)
    (k : pyval) :
  let reply := ApiReturned r in
  let s1 := step (Tick reply) s in
  let s2 := step (Tick reply) s1 in
  show_pool_order s1 = true -> current_pool_order s1 = Some cur ->
  cur !! "id" = Some k -> id_present k (snapshot_of r) = true ->
  poll_events reply s1 = [] /\ show_pool_order s2 = true
  /\ current_pool_order s2 = Some cur
  /\ order_dialog s2 = order_dialog s1 /\ on_display s2 = on_display s1.
Proof.
  intros reply s1 s2 Hshow Hcur Hk Hpres. unfold s2. simpl.
  destruct (check_order_pool_cases reply s1)
    as [Heq|[(r' & _ & _ & _ & Heq)
       |[(r' & cur' & Hr & _ & _ & _ & Hcur' & Hany & _)
       |(r' & first & rest & _ & _ & _ & Hshow' & _)]]]; [| | |congruence].
  - rewrite (poll_events_of reply s1 []) by (by rewrite Heq).
    by rewrite Heq.
  - rewrite (poll_events_of reply s1 []) by (by rewrite Heq).
    by rewrite Heq.
  - exfalso. injection Hr as <-. rewrite Hcur in Hcur'. injection Hcur' as <-.
    by eapply any_same_id_present.
Qed.

(** C1. Order 7 is shown and the next snapshot holds one order, which has
    no id: the id of the candidate is absent from the snapshot, yet the
    poll emits nothing and the candidate stays shown. *)
Lemma missing_id_keeps_candidate :
  let s := run [StatusFetched true; Tick (ApiReturned (pool_with [order7]))]
               (init true) in
  let snapshot : list Order := [{[ "status" := PStr "new" ]}] in
  let reply := ApiReturned (pool_with snapshot) in
  current_pool_order s = Some order7
  /\ id_present (PInt 7) snapshot = false
  /\ poll_events reply s = []
  /\ show_pool_order (step (Tick reply) s) = true
  /\ current_pool_order (step (Tick reply) s) = Some order7
  /\ on_display (step (Tick reply) s) = on_display s.
Proof. by_evaluation. Qed.

Lemma repoll_is_silent_witness :
  let reply := ApiReturned (pool_with [order8; order7]) in
  let s1 := step (Tick reply) (run [StatusFetched true] (init true)) in
  show_pool_order s1 = true /\ poll_events reply s1 = [].
Proof.
  intros reply s1. split; [vm_compute; reflexivity|].
  apply (repoll_is_silent (run [StatusFetched true] (init true))
           (pool_with [order8; order7]) order7 (PInt 7));
    vm_compute; reflexivity.
Defined.

(** C9 (the code departs from it). A shown candidate (order 7) and a
    successful poll whose snapshot is empty: the candidate vanishes, the
    method returns at once, and the stored snapshot is still the previous
    one instead of the fetched one. *)
Theorem pool_kept_when_candidate_vanishes :
  let s := run [StatusFetched true; Tick (ApiReturned (pool_with [order7]))]
               (init true) in
  let s' := step (Tick (ApiReturned (pool_with []))) s in
  get_truthy (pool_with []) "success" = true
  /\ snapshot_of (pool_with []) = []
  /\ pool_orders s = [order7]
  /\ show_pool_order s = true /\ show_pool_order s' = false
  /\ pool_orders s' = [order7].
Proof. by_evaluation. Qed.

End ReconcilerProps.

(** ** The API client *)

Module ApiProps.

Import Api.

Lemma failure_success m : failure m !! "success" = Some (rbool false).
Proof. unfold failure. by rewrite lookup_insert_eq. Qed.

Lemma failure_message m : failure m !! "message" = Some m.
Proof.
  unfold failure. rewrite lookup_insert_ne by done. by rewrite lookup_singleton_eq.
Qed.

Lemma failure_other m k :
  k <> "success" -> k <> "message" -> failure m !! k = None.
Proof.
  intros H1 H2. unfold failure. rewrite lookup_insert_ne by done.
  by rewrite lookup_singleton_ne.
Qed.


Lemma hoare_ret {S A} (P : S -> Prop) (a : A) Q E :
  (forall s, P s -> Q a s) -> hoare P (ret a) Q E.
Proof. intros H s Hs. by apply H. Qed.

Lemma hoare_raise {S A} (P : S -> Prop) e (Q : A -> S -> Prop) E :
  (forall s, P s -> E e s) -> hoare P (raise e) Q E.
Proof. intros H s Hs. by apply H. Qed.

Lemma hoare_lift {S A} (P : S -> Prop) (r : Res A) Q E :
  (forall s, P s -> match r with Ok a => Q a s | Raise e => E e s end) ->
  hoare P (lift r) Q E.
Proof. intros H s Hs. unfold lift. specialize (H s Hs). by destruct r. Qed.

Lemma hoare_get {S} (P : S -> Prop) (Q : S -> S -> Prop) E :
  (forall s, P s -> Q s s) -> hoare P get Q E.
Proof. intros H s Hs. by apply H. Qed.

Lemma hoare_modify {S} (P : S -> Prop) (f : S -> S) Q E :
  (forall s, P s -> Q tt (f s)) -> hoare P (modify f) Q E.
Proof. intros H s Hs. by apply H. Qed.

Lemma hoare_bind {S A B} (P : S -> Prop) (m : M S A) (k : A -> M S B)
    Q1 Q E :
  hoare P m Q1 E -> (forall a, hoare (Q1 a) (k a) Q E) ->
  hoare P (bind m k) Q E.
Proof.
  intros Hm Hk s Hs. unfold bind. specialize (Hm s Hs).
  destruct (m s) as [[a|e] s']; [by apply Hk|done].
Qed.

Lemma hoare_try {S A} (P : S -> Prop) (m : M S A) h Q E1 E :
  hoare P m Q E1 -> (forall e, hoare (E1 e) (h e) Q E) ->
  hoare P (try_except m h) Q E.
Proof.
  intros Hm Hh s Hs. unfold try_except. specialize (Hm s Hs).
  destruct (m s) as [[a|e] s']; [done|by apply Hh].
Qed.

Lemma hoare_weaken {S A} (P P' : S -> Prop) (m : M S A) (Q Q' : A -> S -> Prop)
    (E E' : Exn -> S -> Prop) :
  hoare P' m Q' E' -> (forall s, P s -> P' s) ->
  (forall a s, Q' a s -> Q a s) -> (forall e s, E' e s -> E e s) ->
  hoare P m Q E.
Proof.
  intros Hm HP HQ HE s Hs. specialize (Hm s (HP s Hs)).
  destruct (m s) as [[a|e] s']; auto.
Qed.

Lemma hoare_lift_eq {S A} (P : S -> Prop) (r : Res A) :
  hoare P (lift r) (fun a s => r = Ok a /\ P s) (fun _ _ => True).
Proof. intros s Hs. unfold lift. by destruct r. Qed.


Lemma hoare_bind_get_at {S B} (w : S) (k : S -> M S B) Q E :
  hoare (fun s => s = w) (k w) Q E ->
  hoare (fun s => s = w) (bind get k) Q E.
Proof. intros H s ->. unfold bind, get. by apply H. Qed.

Lemma hoare_lift_inv {S A} (P : S -> Prop) (r : Res A) :
  hoare P (lift r) (fun a s => r = Ok a /\ P s) (fun _ s => P s).
Proof. intros s Hs. unfold lift. by destruct r. Qed.


Lemma chars_append a b : chars (a +:+ b) = chars a ++ chars b.
Proof. induction a as [|c a IH]; simpl; [done|]. unfold chars in *. simpl. by rewrite IH. Qed.

Lemma chars_of_chars l : chars (of_chars l) = l.
Proof. apply list_ascii_of_string_of_list_ascii. Qed.

Lemma of_chars_chars s : of_chars (chars s) = s.
Proof. apply string_of_list_ascii_of_string. Qed.

Lemma starts_app p l : starts p (p ++ l) = true.
Proof.
  induction p as [|c p IH]; simpl; [done|].
  rewrite bool_decide_eq_true_2 by done. done.
Qed.

Lemma has_scheme_formatted u : has_scheme (formatted_url u) = true.
Proof.
  unfold formatted_url. destruct (has_scheme (chopped u)) eqn:H; [done|].
  unfold has_scheme, startswith. rewrite chars_append.
  rewrite (starts_app (chars "https://")). apply orb_true_r.
Qed.

Lemma endswith_slash s :
  endswith s "/"
  = match rev (chars s) with
    | c :: _ => bool_decide ("/"%char = c)
    | [] => false
    end.
Proof.
  unfold endswith. simpl. destruct (rev (chars s)); [done|].
  simpl. by rewrite andb_true_r.
Qed.

Lemma endswith_two_slashes s :
  endswith s "//"
  = match rev (chars s) with
    | c :: d :: _ => bool_decide ("/"%char = c) && bool_decide ("/"%char = d)
    | _ => false
    end.
Proof.
  unfold endswith. simpl. destruct (rev (chars s)) as [|c [|d l]]; simpl; [done| |].
  - by rewrite andb_false_r.
  - by rewrite andb_true_r.
Qed.

Lemma rev_chars_drop_last s : rev (chars (drop_last s)) = tail (rev (chars s)).
Proof.
  unfold drop_last. rewrite chars_of_chars.
  destruct (chars s) as [|a l] using rev_ind; [done|].
  rewrite removelast_last, rev_app_distr. done.
Qed.

Lemma rev_chars_nil s : rev (chars s) = [] -> s = "".
Proof.
  intros H. apply (f_equal (@rev _)) in H. rewrite rev_involutive in H.
  simpl in H. rewrite <- (of_chars_chars s), H. done.
Qed.

(** The stored URL ends with a slash exactly when the stripped input is
    a lone slash or ends with two. *)
Lemma formatted_url_trailing_slash u :
  strip u <> "" ->
  endswith (formatted_url u) "/" = true
  <-> (strip u = "/" \/ endswith (strip u) "//" = true).
Proof.
  intros Hne. unfold formatted_url, chopped.
  rewrite (endswith_slash (strip u)), endswith_two_slashes.
  destruct (rev (chars (strip u))) as [|c R'] eqn:HR.
  { by apply rev_chars_nil in HR. }
  assert (Ht : strip u = of_chars (rev R' ++ [c])).
  { rewrite <- (of_chars_chars (strip u)). f_equal.
    rewrite <- (rev_involutive (chars (strip u))), HR. done. }
  case_bool_decide as Hc.
  - subst c.
    assert (Hd : rev (chars (drop_last (strip u))) = R')
      by (by rewrite rev_chars_drop_last, HR).
    destruct R' as [|d R''].
    + apply rev_chars_nil in Hd. rewrite Hd. simpl.
      split; [intros _; left; rewrite Ht; reflexivity
             |intros _; vm_compute; reflexivity].
    + assert (Hend : forall p, endswith (p +:+ drop_last (strip u)) "/"
                               = bool_decide ("/"%char = d)).
      { intros p. rewrite endswith_slash, chars_append, rev_app_distr, Hd. done. }
      assert (Hend0 : endswith (drop_last (strip u)) "/"
                      = bool_decide ("/"%char = d)) by apply (Hend "").
      simpl.
      destruct (has_scheme _); rewrite ?Hend, ?Hend0.
      * split; [by right|]. intros [H|H]; [|done].
        rewrite Ht in H. apply (f_equal chars) in H.
        rewrite chars_of_chars in H. simpl in H.
        apply (f_equal (@length _)) in H. rewrite length_app in H.
        simpl in H. rewrite length_app in H. simpl in H. lia.
      * split; [by right|]. intros [H|H]; [|done].
        rewrite Ht in H. apply (f_equal chars) in H.
        rewrite chars_of_chars in H. simpl in H.
        apply (f_equal (@length _)) in H. rewrite length_app in H.
        simpl in H. rewrite length_app in H. simpl in H. lia.
  - assert (Hend : forall p, endswith (p +:+ strip u) "/" = false).
    { intros p. rewrite endswith_slash, chars_append, rev_app_distr, HR.
      simpl. by rewrite bool_decide_eq_false_2. }
    assert (Hend0 : endswith (strip u) "/" = false) by apply (Hend "").
    simpl.
    destruct (has_scheme _); rewrite ?Hend, ?Hend0.
    + split; [done|]. intros [H|H]; [|by destruct R'].
      rewrite H in HR. simpl in HR. injection HR as <- _. done.
    + split; [done|]. intros [H|H]; [|by destruct R'].
      rewrite H in HR. simpl in HR. injection HR as <- _. done.
Qed.

Section Proofs.

Variable env : Env.

Local Abbreviation good := (Api.good env).
Local Abbreviation body_ok := (Api.body_ok env).

Lemma after_failures_svc req k : forall a w, svc (after_failures req a k w) = svc w.
Proof. induction k as [|k IH]; intros a w; simpl; [done|]. by rewrite IH. Qed.

Lemma after_failures_log req k : forall a w,
  length (http_log (after_failures req a k w)) = (length (http_log w) + k)%nat.
Proof.
  induction k as [|k IH]; intros a w; simpl; [lia|]. rewrite IH. simpl. lia.
Qed.

Lemma after_failures_sleeps req k : forall a w,
  sleeps (after_failures req a k w)
  = rev (map (backoff (retry_delay (svc w))) (seq a k)) ++ sleeps w.
Proof.
  induction k as [|k IH]; intros a w; simpl; [done|].
  rewrite IH. simpl. by rewrite <- app_assoc.
Qed.

Lemma attempts_after_failures req endpoint retries (e : nat -> string) k :
  forall a w remaining,
    (forall i r, (i < k)%nat ->
       server env (length (http_log w) + i) r = NetworkFailure (e (a + i)%nat)) ->
    Z.of_nat (a + k) <= retries -> (k <= remaining)%nat ->
    attempts env req endpoint retries remaining a w
    = attempts env req endpoint retries (remaining - k) (a + k)
        (after_failures req a k w).
Proof.
  induction k as [|k IH]; intros a w remaining Hfail Hle Hrem.
  - simpl. by rewrite Nat.sub_0_r, Nat.add_0_r.
  - destruct remaining as [|remaining]; [lia|].
    simpl attempts at 1. unfold bind at 1, http at 1.
    rewrite <- (Nat.add_0_r (length (http_log w))).
    rewrite (Hfail 0%nat req) by lia. rewrite Nat.add_0_r. simpl read_reply. cbv beta iota.
    assert (Hlt : (Z.of_nat a <? retries) = true) by (apply Z.ltb_lt; lia).
    rewrite Hlt. unfold bind, get, sleep, modify. simpl.
    rewrite IH; [| |lia|lia].
    + simpl. replace (S (a + k))%nat with (a + S k)%nat by lia. done.
    + intros i r Hi. simpl.
      replace (S (length (http_log w) + i))%nat with (length (http_log w) + S i)%nat by lia.
      rewrite Hfail by lia. f_equal. f_equal. lia.
Qed.

Lemma attempts_answer req endpoint retries remaining a w status body :
  server env (length (http_log w)) req = JsonReply status body ->
  status < 400 ->
  attempts env req endpoint retries (S remaining) a w
  = (Ok body, logged req w).
Proof.
  intros Hx Hst. simpl. unfold bind, http. rewrite Hx. unfold read_reply.
  replace (status >=? 400) with false
    by (symmetry; rewrite Z.geb_leb; apply Z.leb_gt; lia).
  done.
Qed.

Lemma attempts_exhausted req endpoint retries remaining a w e :
  server env (length (http_log w)) req = NetworkFailure e ->
  retries <= Z.of_nat a ->
  attempts env req endpoint retries (S remaining) a w
  = (Raise (APIConnectionError
              ("Failed after " +:+ pretty (retries + 1) +:+ " attempts: "
               +:+ e)),
     logged req w).
Proof.
  intros Hx Hle. simpl. unfold bind, http. rewrite Hx. simpl.
  replace (Z.of_nat a <? retries) with false
    by (symmetry; apply Z.ltb_ge; lia).
  done.
Qed.

Lemma make_request_unfold method endpoint data headers retries w :
  _make_request env method endpoint data headers retries w
  = attempts env (request_for (svc w) method endpoint data headers) endpoint
      (effective_retries retries w)
      (Z.to_nat (effective_retries retries w + 1)) 0
      (snd (set_last_endpoint (Some endpoint) w)).
Proof. reflexivity. Qed.

(** C3. [_make_request] with [R] retries configured (given, or
    [max_retries]), a server whose next [N] exchanges fail at the network
    level and whose exchange after them is a JSON reply with a status below
    400: if [N <= R] the call returns that reply after [N + 1] requests; if
    [R < N] it raises [APIConnectionError] with the text
    "Failed after R+1 attempts: ..." after exactly [R + 1] requests. In both
    cases the waits are [retry_delay * 2 ^ attempt] for the attempts
    0, 1, ... that were retried, in this order (the record of the waits
    holds the latest first). *)
Theorem request_retries (method endpoint : string)
    (data : option (gmap string pyval)) (headers : gmap string pyval)
    (retries : option Z) (R N : nat) (e : nat -> string)
    (status : Z) (body : Body) (w : World) :
  let n0 := length (http_log w) in
  let out := _make_request env method endpoint data headers retries w in
  let waits k :=
    rev (map (fun attempt : nat =>
                Qmult (retry_delay (svc w)) (inject_Z (2 ^ Z.of_nat attempt)))
             (seq 0 k)) in
  effective_retries retries w = Z.of_nat R ->
  (forall i req, (i < N)%nat ->
     server env (n0 + i) req = NetworkFailure (e i)) ->
  (forall req, server env (n0 + N) req = JsonReply status body) ->
  status < 400 ->
  ((N <= R)%nat ->
     fst out = Ok body
     /\ length (http_log (snd out)) = (n0 + N + 1)%nat
     /\ sleeps (snd out) = waits N ++ sleeps w)
  /\ ((R < N)%nat ->
     fst out = Raise (APIConnectionError
                        ("Failed after " +:+ pretty (Z.of_nat R + 1)
                         +:+ " attempts: " +:+ e R))
     /\ length (http_log (snd out)) = (n0 + R + 1)%nat
     /\ sleeps (snd out) = waits R ++ sleeps w).
Proof.
  intros n0 out waits HR Hfail Hok Hstatus.
  pose proof (make_request_unfold method endpoint data headers retries w)
    as Hout.
  set (req := request_for (svc w) method endpoint data headers) in Hout.
  set (w1 := snd (set_last_endpoint (Some endpoint) w)) in Hout.
  assert (Hlog : http_log w1 = http_log w) by done.
  assert (Hsl : sleeps w1 = sleeps w) by done.
  assert (Hdelay : retry_delay (svc w1) = retry_delay (svc w)) by done.
  clearbody w1 req.
  fold out in Hout. rewrite HR in Hout.
  replace (Z.to_nat (Z.of_nat R + 1)) with (S R) in Hout by lia.
  assert (Hlen : length (http_log w1) = n0) by (by rewrite Hlog).
  split; intros HN; rewrite Hout.
  - rewrite (attempts_after_failures req endpoint (Z.of_nat R) e N 0 w1 (S R));
      [| |lia|lia].
    2: { intros i r Hi. rewrite Hlen. by apply Hfail. }
    replace (S R - N)%nat with (S (R - N)) by lia.
    rewrite (attempts_answer _ _ _ _ _ _ status body);
      [| by rewrite after_failures_log, Hlen | done].
    simpl. rewrite after_failures_log, after_failures_sleeps, Hlen, Hdelay, Hsl.
    repeat split; try done. lia.
  - rewrite (attempts_after_failures req endpoint (Z.of_nat R) e R 0 w1 (S R));
      [| |lia|lia].
    2: { intros i r Hi. rewrite Hlen. apply Hfail. lia. }
    replace (S R - R)%nat with 1%nat by lia.
    rewrite (attempts_exhausted _ _ _ _ _ _ (e R));
      [| rewrite after_failures_log, Hlen; apply Hfail; lia | simpl; lia].
    simpl. rewrite after_failures_log, after_failures_sleeps, Hlen, Hdelay, Hsl.
    repeat split; try done. lia.
Qed.

Lemma fetch_with_logging_eq url options w :
  opt_method options = None ->
  let req := {| req_method := match opt_method options with
                              | Some m => m
                              | None => "GET"
                              end;
                req_url := url; req_headers := opt_headers options;
                req_json := opt_json options |} in
  _fetch_with_logging env url options w
  = (fetched (server env (length (http_log w)) req), logged req w).
Proof.
  intros Hm req. unfold _fetch_with_logging, try_except. rewrite Hm.
  unfold bind, http. fold req. subst req. rewrite Hm.
  by destruct (server env (length (http_log w)) _).
Qed.

(** A call whose options name a method is rejected before anything is
    sent. *)
Lemma fetch_with_logging_rejected url options m w :
  opt_method options = Some m ->
  _fetch_with_logging env url options w
  = (Raise (OtherError (method_twice env)), w).
Proof. intros Hm. unfold _fetch_with_logging, try_except. by rewrite Hm. Qed.

Lemma options_of_method c :
  opt_method (options_of c)
  = if Shapes.is_action c then Some "POST" else None.
Proof. by destruct c. Qed.

Lemma auth_fetch_logged_out endpoint options w :
  is_logged_in (svc w) = false ->
  _auth_fetch env endpoint options w
  = (Ok (BObj (failure (rstr not_logged_in_msg))), w).
Proof.
  intros H. unfold _auth_fetch, try_except, bind, get. by rewrite H.
Qed.

Lemma auth_fetch_logged_in endpoint options w :
  is_logged_in (svc w) = true -> opt_method options = None ->
  _auth_fetch env endpoint options w
  = (Ok (auth_fetched (server env (length (http_log w))
                         (auth_request w endpoint options))),
     logged (auth_request w endpoint options) (with_fallback_url w)).
Proof.
  intros H Hm. unfold _auth_fetch, try_except, bind at 1 2, get at 1.
  rewrite H. simpl negb. cbv iota.
  unfold auth_request, auth_fetched, with_fallback_url.
  destruct (str_truthy (base_url (svc w))) eqn:Hb; simpl negb; cbv iota;
    unfold bind, get, ret; simpl; rewrite fetch_with_logging_eq by done;
    simpl;
    match goal with |- context [fetched ?x] => destruct (fetched x) end; done.
Qed.

(** Logged in, a call whose options name a method never reaches the
    server: [_auth_fetch] hands over the text of the [TypeError]. *)
Lemma auth_fetch_rejected endpoint options m w :
  is_logged_in (svc w) = true -> opt_method options = Some m ->
  _auth_fetch env endpoint options w
  = (Ok (BObj (failure (rstr (method_twice env)))), with_fallback_url w).
Proof.
  intros H Hm. unfold _auth_fetch, try_except, bind at 1 2, get at 1.
  rewrite H. simpl negb. cbv iota. unfold with_fallback_url.
  destruct (str_truthy (base_url (svc w))) eqn:Hb; simpl negb; cbv iota;
    unfold bind, get, ret; simpl;
    by rewrite (fetch_with_logging_rejected _ _ m).
Qed.

(** [_auth_fetch] always answers, sends at most one request and never
    waits. *)
Lemma auth_fetch_answers endpoint options w :
  exists b w', _auth_fetch env endpoint options w = (Ok b, w')
    /\ (length (http_log w') <= length (http_log w) + 1)%nat
    /\ sleeps w' = sleeps w.
Proof.
  destruct (is_logged_in (svc w)) eqn:H.
  - destruct (opt_method options) as [m|] eqn:Hm.
    + rewrite (auth_fetch_rejected _ _ m) by done. eexists _, _.
      split; [done|]. unfold with_fallback_url.
      destruct (negb _); simpl; split; (lia || done).
    + rewrite auth_fetch_logged_in by done. eexists _, _. split; [done|].
      unfold with_fallback_url.
      destruct (negb _); simpl; split; (lia || done).
  - rewrite auth_fetch_logged_out by done. eexists _, _. split; [done|].
    split; (lia || done).
Qed.

Lemma run_auth_after_fetch c w b w' :
  _auth_fetch env (endpoint_of c) (options_of c) w = (Ok b, w') ->
  exists r, run_auth env c w = (Ok r, w').
Proof.
  intros H. destruct c; simpl in *;
    unfold check_order_pool, get_current_orders, accept_order, start_order,
      complete_order, cancel_order, update_location, update_driver_status,
      get_driver_profile, try_except, bind at 1;
    rewrite H; unfold bind, lift, ret, get;
    repeat case_match; simplify_eq; eauto.
Qed.

Lemma normalize_pool_failure m :
  normalize_pool (BObj (failure m)) = Ok (data_result (RList [])).
Proof.
  unfold normalize_pool, body_get.
  rewrite failure_success, !failure_other by done. done.
Qed.

Lemma normalize_current_failure m :
  normalize_current (BObj (failure m)) = Ok (data_result (RList [])).
Proof.
  unfold normalize_current, body_get.
  rewrite failure_success, !failure_other by done. done.
Qed.

Lemma action_result_failure m ok default :
  action_result (BObj (failure m)) ok default = Ok (failure m).
Proof.
  unfold action_result, body_get. by rewrite failure_success, failure_message.
Qed.

Lemma run_auth_on_failure c w w' m :
  _auth_fetch env (endpoint_of c) (options_of c) w
  = (Ok (BObj (failure (rstr m))), w') ->
  run_auth env c w = (Ok (on_failure (svc w') c m), w').
Proof.
  intros H. destruct c; simpl in *;
    unfold check_order_pool, get_current_orders, accept_order, start_order,
      complete_order, cancel_order, update_location, update_driver_status,
      get_driver_profile, try_except, bind at 1;
    rewrite H; unfold bind, lift, ret, get;
    rewrite ?normalize_pool_failure, ?normalize_current_failure,
      ?action_result_failure; done.
Qed.

(** C5, as amended. While [is_logged_in] is false every authenticated
    method returns without touching the world (no request is sent): the
    order actions and the status and location updates answer
    [{success: False, message: "Nie zalogowano"}], [check_order_pool] and
    [get_current_orders] answer [{success: True, data: []}], and
    [get_driver_profile] answers success with the fallback profile. *)
Theorem logged_out_no_request (c : AuthCall) (w : World) :
  is_logged_in (svc w) = false ->
  run_auth env c w = (Ok (on_failure (svc w) c not_logged_in_msg), w).
Proof.
  intros H. apply run_auth_on_failure. by apply auth_fetch_logged_out.
Qed.






(** Keyring operations never touch the service; anything may happen to
    the store. *)
Lemma hoare_kr_op {A} (f : gmap string string -> A * gmap string string)
    (I : World -> Prop) :
  (forall w k n, I w -> I (mkWorld (svc w) k n (http_log w) (sleeps w))) ->
  hoare I (kr_op env f) (fun _ => I) (fun _ => I).
Proof.
  intros HI w Hw. unfold kr_op. destruct (kr_fault env (keyring_ops w)).
  - by apply HI.
  - destruct (f (keyring w)). by apply HI.
Qed.

Lemma hoare_delete_password key (I : World -> Prop) :
  (forall w k n, I w -> I (mkWorld (svc w) k n (http_log w) (sleeps w))) ->
  hoare I (delete_password env key) (fun _ => I) (fun _ => I).
Proof.
  intros HI. unfold delete_password.
  eapply hoare_bind; [by apply hoare_kr_op|].
  intros [|]; cbv beta; [by apply hoare_ret|by apply hoare_raise].
Qed.

(** *** No exception escapes; results are normalized *)


Lemma hoare_anything {A} P (m : M World A) : hoare P m anything anything.
Proof. intros w _. by destruct (m w) as [[?|?] ?]. Qed.

Lemma good_failure_str s : good (failure (rstr s)).
Proof.
  split.
  - exists false. split; [apply failure_success|].
    intros _. rewrite failure_message. by eexists.
  - intros _ m. rewrite failure_message. intros [= <-]. by eexists.
Qed.

Lemma good_failure_get_or (r : Response) default :
  body_ok (BObj r) -> good (failure (get_or (r !! "message") default)).
Proof.
  intros Hb. split.
  - exists false. split; [apply failure_success|].
    intros _. rewrite failure_message. by eexists.
  - intros Hs m. rewrite failure_message. intros [= <-].
    destruct (r !! "message") as [v|] eqn:Hm; simpl; [|by eexists].
    by apply (Hb Hs r v).
Qed.

Lemma good_success (r : Response) :
  r !! "success" = Some (rbool true) -> r !! "message" = None -> good r.
Proof.
  intros H1 H2. split.
  - exists true. split; [done|discriminate].
  - intros _ m. rewrite H2. discriminate.
Qed.

Lemma good_success_msg (r : Response) s :
  r !! "success" = Some (rbool true) -> r !! "message" = Some (rstr s) ->
  good r.
Proof.
  intros H1 H2. split.
  - exists true. split; [done|discriminate].
  - intros _ m. rewrite H2. intros [= <-]. by eexists.
Qed.

Lemma good_data_result d : good (data_result d).
Proof. by apply good_success. Qed.

Lemma good_failure_with_data s : good (failure_with_data s).
Proof.
  split.
  - exists false. split; [done|]. intros _. by eexists.
  - intros _ m. unfold failure_with_data.
    rewrite lookup_insert_ne by done. rewrite lookup_insert_eq.
    intros [= <-]. by eexists.
Qed.

Lemma body_ok_failure s : body_ok (BObj (failure (rstr s))).
Proof.
  intros _ r m [= <-]. rewrite failure_message. intros [= <-]. by eexists.
Qed.

Lemma body_ok_fetched n req b :
  fetched (server env n req) = Ok b -> body_ok b.
Proof.
  destruct (server env n req) as [e|e|st d|st t je|st t je] eqn:Hx;
    simpl; intros [= <-].
  - intros Hs r m -> Hm. by eapply Hs.
  - intros _ r m [= <-]. rewrite lookup_insert_ne by done.
    rewrite lookup_singleton_eq. intros [= <-]. by eexists.
Qed.

Lemma fetch_body_ok url options :
  hoare always (_fetch_with_logging env url options)
        (fun b _ => body_ok b) anything.
Proof.
  intros w _. destruct (opt_method options) as [m|] eqn:Hm.
  { by rewrite (fetch_with_logging_rejected _ _ m). }
  rewrite fetch_with_logging_eq by done.
  match goal with |- context [fetched ?x] => destruct (fetched x) eqn:Hf end;
    [|done]. by eapply body_ok_fetched.
Qed.

Lemma auth_fetch_body_ok endpoint options :
  hoare always (_auth_fetch env endpoint options)
        (fun b _ => body_ok b) nothing.
Proof.
  intros w _. destruct (is_logged_in (svc w)) eqn:Hin.
  - destruct (opt_method options) as [m|] eqn:Hm.
    { rewrite (auth_fetch_rejected _ _ m) by done. apply body_ok_failure. }
    rewrite auth_fetch_logged_in by done. unfold auth_fetched.
    match goal with |- context [fetched ?x] => destruct (fetched x) eqn:Hf end.
    + by eapply body_ok_fetched.
    + apply body_ok_failure.
  - rewrite auth_fetch_logged_out by done. apply body_ok_failure.
Qed.

Lemma normalize_pool_good b :
  match normalize_pool b with Ok r => good r | Raise _ => True end.
Proof.
  unfold normalize_pool. destruct b as [r|ty]; simpl; [|done].
  repeat case_match; simplify_eq; try done; apply good_data_result.
Qed.

Lemma normalize_current_good b :
  match normalize_current b with Ok r => good r | Raise _ => True end.
Proof.
  unfold normalize_current. destruct b as [r|ty]; simpl; [|done].
  repeat case_match; simplify_eq; try done; apply good_data_result.
Qed.

Lemma action_result_good b ok default :
  body_ok b -> good ok ->
  match action_result b ok default with Ok r => good r | Raise _ => True end.
Proof.
  intros Hb Hok. unfold action_result. destruct b as [r|ty]; simpl; [|done].
  repeat case_match; simplify_eq; try done. by apply good_failure_get_or.
Qed.

(** The shape of an endpoint method: fetch, decide on the response, turn
    any exception into a failure result. *)
Lemma endpoint_good endpoint options (f : Body -> Res Response)
    (g : Exn -> Response) :
  (forall b, body_ok b -> match f b with Ok r => good r | Raise _ => True end) ->
  (forall e, good (g e)) ->
  hoare always
    (try_except
       (let! response := _auth_fetch env endpoint options in lift (f response))
       (fun error => ret (g error)))
    (fun r _ => good r) nothing.
Proof.
  intros Hf Hg. eapply hoare_try with (E1 := anything).
  - eapply hoare_bind.
    + eapply hoare_weaken; [apply auth_fetch_body_ok|done|..].
      * intros b w Hb. exact Hb.
      * done.
    + intros b. apply hoare_lift. intros w Hb. specialize (Hf b Hb).
      by destruct (f b).
  - intros e. apply hoare_ret. intros w _. apply Hg.
Qed.

Lemma run_auth_good c :
  hoare always (run_auth env c) (fun r _ => good r) nothing.
Proof.
  destruct c; simpl;
    unfold check_order_pool, get_current_orders, accept_order, start_order,
      complete_order, cancel_order, update_location, update_driver_status.
  - apply endpoint_good; [intros; apply normalize_pool_good|].
    intros; apply good_failure_with_data.
  - apply endpoint_good; [intros; apply normalize_current_good|].
    intros; apply good_failure_with_data.
  - apply endpoint_good; [|intros; apply good_failure_str].
    intros b Hb. apply action_result_good; [done|]. by apply good_success.
  - apply endpoint_good; [|intros; apply good_failure_str].
    intros b Hb. apply action_result_good; [done|]. by apply good_success.
  - apply endpoint_good; [|intros; apply good_failure_str].
    intros b Hb. apply action_result_good; [done|]. by apply good_success.
  - apply endpoint_good; [|intros; apply good_failure_str].
    intros b Hb. apply action_result_good; [done|]. by apply good_success.
  - apply endpoint_good; [|intros; apply good_failure_str].
    intros b Hb. apply action_result_good; [done|]. by apply good_success.
  - apply endpoint_good; [|intros; apply good_failure_str].
    intros b Hb. apply action_result_good; [done|]. by apply good_success.
  - unfold get_driver_profile.
    eapply hoare_try with (E1 := anything);
      [|intros e; apply hoare_ret; intros; apply good_failure_str].
    eapply hoare_bind with (Q1 := anything); [apply hoare_anything|]. intros b.
    intros w _. unfold bind, lift, get, ret.
    destruct b as [r|ty]; simpl; [|done].
    repeat case_match; simplify_eq; try done; apply good_data_result.
Qed.

Ltac skip_step x :=
  eapply hoare_bind with (Q1 := anything);
  [apply hoare_anything|intros x; cbv beta].
Ltac skip := let x := fresh in skip_step x.

Lemma login_good ph pw url :
  hoare always (login env ph pw url) (fun r _ => good r) nothing.
Proof.
  unfold login.
  eapply hoare_try with (E1 := anything);
    [|intros e; apply hoare_ret; intros; apply good_failure_str].
  skip_step w0. cbv zeta.
  skip. skip_step w1.
  eapply hoare_bind;
    [eapply hoare_weaken; [apply fetch_body_ok|done| |done]|].
  { intros b w Hb. exact Hb. }
  intros b. eapply hoare_bind; [apply hoare_lift_eq|]. intros success.
  cbv beta. destruct (opt_rtruthy success).
  - do 3 skip. apply hoare_ret. intros w _.
    by eapply good_success_msg.
  - eapply hoare_bind; [apply hoare_lift_eq|]. intros message. cbv beta.
    apply hoare_ret. intros w (Hm & _ & Hb).
    destruct b as [r|ty]; simpl in Hm; simplify_eq.
    by apply good_failure_get_or.
Qed.

Lemma auto_login_good :
  hoare always (auto_login env) (fun r _ => good r) nothing.
Proof.
  unfold auto_login.
  eapply hoare_try with (E1 := anything);
    [|intros e; apply hoare_ret; intros; apply good_failure_str].
  eapply hoare_bind with (Q1 := anything); [apply hoare_anything|].
  intros [[ph pw]|].
  - eapply hoare_weaken; [apply login_good|done..].
  - apply hoare_ret. intros. apply good_failure_str.
Qed.

Lemma logout_good :
  hoare always (logout env) (fun r _ => good r) nothing.
Proof.
  unfold logout.
  eapply hoare_try with (E1 := anything).
  - skip_step w0. do 3 skip.
    apply hoare_ret. intros. by eapply good_success_msg.
  - intros e. apply hoare_ret. intros. by eapply good_success_msg.
Qed.

Lemma get_order_details_good i :
  hoare always (get_order_details env i) (fun r _ => good r) nothing.
Proof.
  unfold get_order_details.
  eapply hoare_try with (E1 := anything);
    [|intros e; apply hoare_ret; intros; apply good_failure_str].
  skip_step b. skip_step success. destruct (opt_rtruthy success).
  - skip_step data. apply hoare_ret. intros. apply good_data_result.
  - apply hoare_ret. intros. apply good_failure_str.
Qed.

Lemma get_order_storage_details_good i :
  hoare always (get_order_storage_details env i) (fun r _ => good r) nothing.
Proof.
  unfold get_order_storage_details.
  eapply hoare_try with (E1 := anything);
    [|intros e; apply hoare_ret; intros; apply good_failure_str].
  skip_step b. skip_step success. destruct (opt_rtruthy success).
  - skip_step data. apply hoare_ret. intros. apply good_data_result.
  - apply hoare_ret. intros. apply good_data_result.
Qed.

(** Login, auto-login, logout, the authenticated endpoint methods and the
    two order-detail methods never raise, whatever the server and the
    credential store do: they return a dictionary with a boolean [success]
    and, when it is false, a [message] entry, which is a string whenever
    the messages the server sends are strings. *)
Lemma perform_answers (op : Operation) (w : World) :
  exists r w',
    perform env op w = (Ok r, w')
    /\ normalized r
    /\ (string_messages env -> message_is_string r).
Proof.
  assert (H : hoare always (perform env op) (fun r _ => good r) nothing).
  { destruct op; simpl.
    - apply login_good.
    - apply auto_login_good.
    - apply logout_good.
    - apply run_auth_good.
    - apply get_order_details_good.
    - apply get_order_storage_details_good. }
  specialize (H w I). destruct (perform env op w) as [[r|e] w']; [|done].
  exists r, w'. by destruct H.
Qed.

Lemma login_url_truthy url w : str_truthy (Some (login_url_of url w)) = true.
Proof.
  unfold login_url_of. destruct (str_truthy (str_or url (base_url (svc w)))) eqn:H;
    simpl; [|done].
  destruct (str_or url (base_url (svc w))); [done|discriminate].
Qed.

Lemma kr_op_ok {A} (f : gmap string string -> A * gmap string string) w :
  store_ok env ->
  kr_op env f w
  = (Ok (fst (f (keyring w))),
     mkWorld (svc w) (snd (f (keyring w))) (S (keyring_ops w)) (http_log w)
             (sleeps w)).
Proof. intros H. unfold kr_op. rewrite H. by destruct (f (keyring w)). Qed.


(** The credential store never touches the service. *)
Lemma save_credentials_svc ph pw url (a : APIService) :
  hoare (fun s => svc s = a) (save_credentials env ph pw url)
        (fun _ s => svc s = a) (fun _ _ => False).
Proof.
  unfold save_credentials.
  eapply hoare_try with (E1 := fun _ s => svc s = a);
    [|intros e; by apply hoare_ret].
  eapply hoare_bind; [by apply hoare_kr_op|]. intros ?; cbv beta.
  eapply hoare_bind; [by apply hoare_kr_op|]. intros ?; cbv beta.
  eapply hoare_bind with (Q1 := fun _ s => svc s = a); [by apply hoare_get|].
  intros s0. cbv zeta. case_match.
  - by apply hoare_kr_op.
  - by apply hoare_ret.
Qed.

(** [login] as the code stands: the service is set up with the
    credentials and the URL, the request is rejected before it is sent
    (its options name the method), and the answer is the failure built
    from the text of the [TypeError]. *)
Lemma login_result ph pw url w :
  login env ph pw url w
  = (Ok (failure (rstr ("Błąd połączenia: " +:+ method_twice env))),
     snd (initialize env ph pw (Some (login_url_of url w)) w)).
Proof.
  unfold login, try_except. unfold bind at 1, get at 1. cbv zeta.
  fold (login_url_of url w). unfold bind at 1.
  assert (Hi : initialize env ph pw (Some (login_url_of url w)) w
               = (Ok tt, snd (initialize env ph pw (Some (login_url_of url w))
                                         w))) by reflexivity.
  rewrite Hi. unfold bind at 1, get at 1. unfold bind at 1.
  by rewrite (fetch_with_logging_rejected _ _ "GET").
Qed.

Lemma login_base_url ph pw url w :
  base_url (svc (snd (login env ph pw url w))) = Some (login_url_of url w).
Proof.
  rewrite login_result. simpl. unfold str_or.
  by rewrite login_url_truthy.
Qed.

(** The entries of the store once [logout] has run. *)
Lemma logout_effect w :
  store_ok env ->
  hoare (fun s => s = w) (logout env)
    (fun r s =>
       r = {[ "success" := rbool true;
              "message" := rstr "Wylogowano pomyślnie" ]}
       /\ keyring s
          = if bool_decide (is_Some (keyring w !! "phone"))
            then delete "password" (delete "phone" (keyring w))
            else keyring w)
    nothing.
Proof.
  intros Hstore. unfold logout.
  eapply hoare_try with (E1 := nothing); [|by intros e s []].
  apply hoare_bind_get_at.
  eapply hoare_bind with (Q1 := fun _ s => keyring s = keyring w).
  { intros s ->. destruct (is_logged_in (svc w)) eqn:Hin; [|done].
    unfold bind. rewrite (auth_fetch_rejected _ _ "POST") by done. simpl.
    unfold with_fallback_url. by destruct (negb _). }
  intros ?; cbv beta.
  set (K := if bool_decide (is_Some (keyring w !! "phone"))
            then delete "password" (delete "phone" (keyring w))
            else keyring w).
  eapply hoare_bind with (Q1 := fun _ s => keyring s = K).
  { intros s Hs. unfold try_except, bind, delete_password, bind.
    rewrite kr_op_ok by done. simpl. rewrite Hs. unfold K.
    destruct (bool_decide (is_Some (keyring w !! "phone"))) eqn:Hph; simpl.
    - rewrite kr_op_ok by done. simpl.
      by destruct (bool_decide (is_Some (delete "phone" (keyring w)
                                         !! "password"))).
    - apply bool_decide_eq_false in Hph.
      apply delete_id. by apply eq_None_not_Some. }
  intros ?; cbv beta.
  eapply hoare_bind with (Q1 := fun _ s => keyring s = K).
  { intros s Hs. exact Hs. }
  intros ?; cbv beta. by apply hoare_ret.
Qed.

Lemma logout_keyring w :
  store_ok env ->
  keyring (snd (logout env w))
  = if bool_decide (is_Some (keyring w !! "phone"))
    then delete "password" (delete "phone" (keyring w))
    else keyring w.
Proof.
  intros Hstore. pose proof (logout_effect w Hstore w eq_refl) as H.
  destruct (logout env w) as [[r|e] w']; simpl; [by destruct H|done].
Qed.

Lemma logout_keeps_other_entries w k :
  store_ok env -> k <> "phone" -> k <> "password" ->
  keyring (snd (logout env w)) !! k = keyring w !! k.
Proof.
  intros Hstore H1 H2. rewrite logout_keyring by done.
  destruct (bool_decide _); [|done]. by rewrite !lookup_delete_ne.
Qed.


Lemma change_base_url_ok u w r w' :
  change_base_url env u w = (Ok r, w') ->
  r = true /\ strip u <> ""
  /\ base_url (svc w') = Some (formatted_url u)
  /\ keyring w' !! "api_url" = Some (formatted_url u).
Proof.
  unfold change_base_url, try_except, bind.
  destruct (bool_decide (u = "") || bool_decide (strip u = "")) eqn:Hempty;
    [done|].
  apply orb_false_iff in Hempty as [_ Hs]. apply bool_decide_eq_false in Hs.
  fold (chopped u). unfold set_password_entry, kr_op.
  destruct (kr_fault env (keyring_ops w)); [done|]. simpl.
  intros [= <- <-]. simpl.
  assert (Hf : (if negb (startswith (chopped u) "http://")
                   && negb (startswith (chopped u) "https://")
                then "https://" +:+ chopped u else chopped u)
               = formatted_url u).
  { unfold formatted_url, has_scheme.
    by destruct (startswith (chopped u) "http://"),
                (startswith (chopped u) "https://"). }
  rewrite Hf. repeat split; try done. by rewrite lookup_insert_eq.
Qed.

Lemma initialize_base_url ph pw url w :
  base_url (svc (snd (initialize env ph pw url w)))
  = str_or url (Some default_url).
Proof. reflexivity. Qed.

(** C7, as amended. A [change_base_url] that returns has stored a URL with
    an explicit scheme: the stripped input without one trailing slash, with
    [https://] in front when that lacks a scheme; the stored URL has no
    trailing slash when the stripped input is neither a lone slash nor ends
    with two slashes. [initialize] stores the URL it is given (else the default) as
    it is, and after [login] the base URL is the URL the login was made
    with, as it was given. *)
Theorem base_url_after_setting (u ph pw : string) (url : option string)
    (w : World) :
  (forall r w', change_base_url env u w = (Ok r, w') ->
     r = true
     /\ base_url (svc w') = Some (formatted_url u)
     /\ has_scheme (formatted_url u) = true
     /\ (has_scheme (chopped u) = false ->
         formatted_url u = "https://" +:+ chopped u)
     /\ (strip u <> "/" -> endswith (strip u) "//" = false ->
         endswith (formatted_url u) "/" = false))
  /\ base_url (svc (snd (initialize env ph pw url w)))
     = str_or url (Some default_url)
  /\ base_url (svc (snd (login env ph pw url w))) = Some (login_url_of url w).
Proof.
  split; [|split].
  - intros r w' H. apply change_base_url_ok in H as (-> & Hne & Hb & _).
    split; [done|]. split; [done|]. split; [apply has_scheme_formatted|].
    split.
    + intros Hs. unfold formatted_url. by rewrite Hs.
    + intros H1 H2. apply not_true_is_false. intros Hend.
      apply formatted_url_trailing_slash in Hend; [|done].
      destruct Hend; [done|congruence].
  - apply initialize_base_url.
  - apply login_base_url.
Qed.

End Proofs.

(** *** The theorems at concrete inputs *)

Lemma request_retries_witness :
  let out := _make_request (flaky_env 2 ok_reply) "GET" "/api/driver2/profile"
               None ∅ None new_world in
  fst out = Ok ok_body
  /\ length (http_log (snd out)) = 3%nat
  /\ sleeps (snd out) = [inject_Z 2; inject_Z 1].
Proof.
  assert (Hfail : forall i req, (i < 2)%nat ->
            server (flaky_env 2 ok_reply) (length (http_log new_world) + i) req
            = NetworkFailure ((fun _ => "timeout") i)).
  { intros i req Hi. destruct i as [|[|i]]; [reflexivity|reflexivity|lia]. }
  destruct (request_retries (flaky_env 2 ok_reply) "GET" "/api/driver2/profile"
              None ∅ None 3 2 (fun _ => "timeout") 200 ok_body new_world
              eq_refl Hfail (fun _ => eq_refl) eq_refl) as [H _].
  apply H. lia.
Defined.


Lemma logged_out_no_request_witness :
  run_auth (env_of ok_reply) (AcceptOrder 7) new_world
  = (Ok (failure (rstr not_logged_in_msg)), new_world).
Proof. apply (logged_out_no_request (env_of ok_reply) (AcceptOrder 7) new_world). reflexivity. Defined.


Lemma string_messages_error_reply : string_messages (env_of error_reply).
Proof.
  intros n req status r m H Hm. simpl in H. injection H as _ <-.
  rewrite lookup_insert_ne in Hm by discriminate.
  rewrite lookup_singleton_eq in Hm. injection Hm as <-. eexists. reflexivity.
Defined.


(** The input starts with a no-break space (U+00A0) and ends with an em
    space (U+2003). *)
Lemma base_url_after_setting_witness :
  let env := env_of ok_reply in
  base_url (svc (snd (change_base_url env " taxi.example.com/ " new_world)))
  = Some "https://taxi.example.com"
  /\ endswith "https://taxi.example.com" "/" = false.
Proof.
  intros env.
  destruct (base_url_after_setting env " taxi.example.com/ " "p" "pw" None
              new_world) as [H _].
  destruct (H true (snd (change_base_url env " taxi.example.com/ " new_world)))
    as (_ & Hb & _ & _ & Hs).
  { vm_compute. reflexivity. }
  split.
  - rewrite Hb. vm_compute. reflexivity.
  - change "https://taxi.example.com"
      with (formatted_url " taxi.example.com/ ").
    apply Hs; [discriminate|vm_compute; reflexivity].
Defined.

(** *** Where the code departs from the specification *)

(** C2. [change_base_url] lets its exception escape: on the empty string it
    raises [ValueError]. *)
Lemma change_base_url_raises :
  fst (change_base_url (env_of ok_reply) "" new_world)
  = Raise (ValueError "Nowy adres URL nie może być pusty").
Proof. reflexivity. Qed.

(** C5. Logged out, [check_order_pool] answers success (with an empty
    list), not failure; no request is sent. *)
Lemma logged_out_pool_reports_success :
  let out := run_auth (env_of ok_reply) CheckOrderPool new_world in
  is_logged_in (svc new_world) = false
  /\ fst out = Ok (data_result (RList []))
  /\ data_result (RList []) !! "success" = Some (rbool true)
  /\ http_log (snd out) = [].
Proof. by_evaluation. Qed.

(** C7. [initialize] stores a URL with a trailing slash and without a
    scheme as it is. *)
Lemma initialize_keeps_url_as_given :
  let w := snd (initialize (env_of ok_reply) "+48111222333" "pw"
                           (Some "taxi.example.com/") new_world) in
  base_url (svc w) = Some "taxi.example.com/"
  /\ endswith "taxi.example.com/" "/" = true
  /\ has_scheme "taxi.example.com/" = false.
Proof. by_evaluation. Qed.



End ApiProps.

(** ** Further properties of the API client *)

Module TransportProps.

Import Api ApiProps Shapes.

Lemma repeat_middle {A} (x : A) k l :
  repeat x k ++ x :: l = x :: repeat x k ++ l.
Proof. induction k as [|k IH]; simpl; [done|]. by rewrite IH. Qed.

Section Transport.
Variable env : Env.

Lemma attempts_step req endpoint retries remaining a w :
  attempts env req endpoint retries (S remaining) a w
  = match read_reply env endpoint (server env (length (http_log w)) req) with
    | Ok b => (Ok b, logged req w)
    | Raise (ClientError e) =>
        if Z.of_nat a <? retries then
          attempts env req endpoint retries remaining (S a)
            (mkWorld (svc w) (keyring w) (keyring_ops w) (req :: http_log w)
                     (backoff (retry_delay (svc w)) a :: sleeps w))
        else
          (Raise (APIConnectionError
                    ("Failed after " +:+ pretty (retries + 1)
                     +:+ " attempts: " +:+ e)),
           logged req w)
    | Raise e =>
        (Raise (APIConnectionError ("Unexpected error: " +:+ exn_str e)),
         logged req w)
    end.
Proof.
  simpl. unfold bind at 1, http.
  destruct (read_reply env endpoint (server env (length (http_log w)) req))
    as [b|[]]; try reflexivity.
  by destruct (Z.of_nat a <? retries).
Qed.

Lemma after_attempts_one req a w : after_attempts req a 1 w = logged req w.
Proof. reflexivity. Qed.

Lemma attempts_shape req endpoint retries remaining :
  forall a w,
    Z.of_nat (a + remaining) = retries + 1 -> (1 <= remaining)%nat ->
    exists k,
      (1 <= k <= remaining)%nat
      /\ snd (attempts env req endpoint retries remaining a w)
         = after_attempts req a k w
      /\ match fst (attempts env req endpoint retries remaining a w) with
         | Ok _ => True
         | Raise e => exists m, e = APIConnectionError m
         end.
Proof.
  induction remaining as [|remaining IH]; intros a w Hsum Hpos; [lia|].
  rewrite attempts_step.
  destruct (read_reply env endpoint (server env (length (http_log w)) req))
    as [b|e] eqn:Hr.
  - exists 1%nat. split; [lia|]. by split.
  - destruct e as [k0|m|m|m|m|m|m];
      try (exists 1%nat; split; [lia|]; split; [done|by eexists]).
    destruct (Z.of_nat a <? retries) eqn:Hlt.
    + apply Z.ltb_lt in Hlt.
      destruct (IH (S a)
                  (mkWorld (svc w) (keyring w) (keyring_ops w)
                           (req :: http_log w)
                           (backoff (retry_delay (svc w)) a :: sleeps w)))
        as (k & Hk & Hw & He); [lia|lia|].
      exists (S k). split; [lia|]. split; [|exact He].
      rewrite Hw. unfold after_attempts. simpl. f_equal.
      * apply repeat_middle.
      * destruct k as [|k]; [lia|]. simpl. rewrite Nat.sub_0_r.
        rewrite <- app_assoc. simpl. done.
    + exists 1%nat. split; [lia|]. split; [done|by eexists].
Qed.

(** X1. [_make_request] sends the same request one to [retries + 1] times,
    waits [retry_delay * 2 ^ attempt] after the failed attempt number
    [attempt] (0, 1, ...) and nowhere else (the record of the waits holds
    the latest first), and raises nothing but [APIConnectionError]. *)
Theorem make_request_shape (method endpoint : string)
    (data : option (gmap string pyval)) (headers : gmap string pyval)
    (retries : option Z) (w : World) :
  0 <= effective_retries retries w ->
  let out := _make_request env method endpoint data headers retries w in
  let req := request_for (svc w) method endpoint data headers in
  exists k,
    (1 <= k <= Z.to_nat (effective_retries retries w + 1))%nat
    /\ http_log (snd out) = repeat req k ++ http_log w
    /\ sleeps (snd out)
       = rev (map (fun attempt : nat =>
                     Qmult (retry_delay (svc w))
                           (inject_Z (2 ^ Z.of_nat attempt)))
                  (seq 0 (k - 1)))
         ++ sleeps w
    /\ keyring (snd out) = keyring w
    /\ match fst out with
       | Ok _ => True
       | Raise e => exists m, e = APIConnectionError m
       end.
Proof.
  intros HR out req.
  destruct (attempts_shape req endpoint (effective_retries retries w)
              (Z.to_nat (effective_retries retries w + 1)) 0
              (snd (set_last_endpoint (Some endpoint) w)))
    as (k & Hk & Hw & He); [lia|lia|].
  exists k. unfold out. rewrite make_request_unfold. fold req.
  rewrite Hw. split; [done|]. repeat split; try done.
Qed.

(** X2. With a negative retry count no request is sent at all. *)
Theorem make_request_negative_retries (method endpoint : string)
    (data : option (gmap string pyval)) (headers : gmap string pyval)
    (retries : option Z) (w : World) :
  effective_retries retries w < 0 ->
  let out := _make_request env method endpoint data headers retries w in
  fst out = Raise (APIConnectionError "Request failed for unknown reason")
  /\ http_log (snd out) = http_log w /\ sleeps (snd out) = sleeps w.
Proof.
  intros HR out. unfold out. rewrite make_request_unfold.
  replace (Z.to_nat (effective_retries retries w + 1)) with 0%nat by lia.
  done.
Qed.

(** X3. A JSON object reply with status 400 or more ends the call at once: one
    request, no wait, an [APIConnectionError] whose text starts with
    "Unexpected error: " and carries the reply's [error] field, or
    "HTTP <status>" when there is none; status 401 is reported as
    "Authentication failed" inside that same error class. *)
Theorem make_request_http_error (method endpoint : string)
    (data : option (gmap string pyval)) (headers : gmap string pyval)
    (retries : option Z) (w : World) (status : Z) (r : Response) :
  0 <= effective_retries retries w ->
  400 <= status ->
  (forall req,
     server env (length (http_log w)) req = JsonReply status (BObj r)) ->
  let out := _make_request env method endpoint data headers retries w in
  let error_msg := match r !! "error" with
                   | Some v => fmt env v
                   | None => "HTTP " +:+ pretty status
                   end in
  fst out
  = Raise (APIConnectionError
             ("Unexpected error: "
              +:+ (if status =? 401
                   then "Authentication failed: " +:+ error_msg
                   else "API error " +:+ pretty status +:+ ": " +:+ error_msg)))
  /\ length (http_log (snd out)) = S (length (http_log w))
  /\ sleeps (snd out) = sleeps w.
Proof.
  intros HR Hst Hsrv out error_msg. unfold out. rewrite make_request_unfold.
  replace (Z.to_nat (effective_retries retries w + 1))
    with (S (Z.to_nat (effective_retries retries w))) by lia.
  rewrite attempts_step. simpl length. rewrite Hsrv. unfold read_reply.
  replace (status >=? 400) with true
    by (symmetry; rewrite Z.geb_leb; apply Z.leb_le; lia).
  simpl body_get. cbv iota. fold error_msg.
  by destruct (status =? 401).
Qed.

(** What [_make_request] does whatever the server does and whatever the
    retry count is. *)
Lemma make_request_outcome method endpoint data headers retries w :
  let out := _make_request env method endpoint data headers retries w in
  svc (snd out) = svc (snd (set_last_endpoint (Some endpoint) w))
  /\ keyring (snd out) = keyring w
  /\ (length (http_log (snd out))
      <= length (http_log w) + Z.to_nat (effective_retries retries w + 1))%nat
  /\ match fst out with
     | Ok _ => True
     | Raise e => exists m, e = APIConnectionError m
     end.
Proof.
  intros out. unfold out. rewrite make_request_unfold.
  destruct (Z.to_nat (effective_retries retries w + 1)) as [|n] eqn:Hn.
  - simpl. repeat split; try done; [lia|by eexists].
  - destruct (attempts_shape
                (request_for (svc w) method endpoint data headers) endpoint
                (effective_retries retries w) (S n) 0
                (snd (set_last_endpoint (Some endpoint) w)))
      as (k & Hk & Hw & He); [lia|lia|].
    rewrite Hw. repeat split; try done.
    simpl. rewrite length_app, repeat_length. lia.
Qed.

Lemma verb_unfold v :
  run_verb env v
  = try_except
      (match v with
       | VGet e params => _make_request env "GET" e None params None
       | VPost e data => _make_request env "POST" e data ∅ None
       | VPut e data => _make_request env "PUT" e data ∅ None
       | VDelete e => _make_request env "DELETE" e None ∅ None
       end)
      (fun e => let! r := _handle_error env e (verb_endpoint v) in ret (BObj r)).
Proof. by destruct v. Qed.

(** X4. [get], [post], [put] and [delete] never raise. Either the request went
    through and the error counters are untouched, or the answer is the
    error report: [success] false, the text under [error] (there is no
    [message] entry), the endpoint; the failure is counted and kept as
    [last_error], an [APIConnectionError]. *)
Theorem verbs_never_raise (v : Verb) (w : World) :
  exists b w',
    run_verb env v w = (Ok b, w')
    /\ last_endpoint (svc w') = Some (verb_endpoint v)
    /\ ((error_count (svc w') = error_count (svc w)
         /\ last_error (svc w') = last_error (svc w))
        \/ exists m,
             b = BObj (error_report env m (verb_endpoint v))
             /\ error_report env m (verb_endpoint v) !! "message" = None
             /\ error_count (svc w') = error_count (svc w) + 1
             /\ last_error (svc w') = Some (APIConnectionError m)).
Proof.
  rewrite verb_unfold. unfold try_except.
  set (m := match v with
            | VGet e params => _make_request env "GET" e None params None
            | VPost e data => _make_request env "POST" e data ∅ None
            | VPut e data => _make_request env "PUT" e data ∅ None
            | VDelete e => _make_request env "DELETE" e None ∅ None
            end).
  assert (H : svc (snd (m w))
              = svc (snd (set_last_endpoint (Some (verb_endpoint v)) w))
              /\ match fst (m w) with
                 | Ok _ => True
                 | Raise e => exists t, e = APIConnectionError t
                 end).
  { unfold m. destruct v; simpl verb_endpoint;
      match goal with |- context [_make_request env ?a ?b ?c ?d ?e w] =>
        destruct (make_request_outcome a b c d e w) as (H1 & _ & _ & H2) end;
      by split. }
  destruct H as [Hsvc He]. destruct (m w) as [[b|e] w1]; simpl in *.
  - exists b, w1. split; [done|]. rewrite Hsvc. split; [done|]. by left.
  - destruct He as [t ->]. eexists _, _. split; [reflexivity|].
    simpl. rewrite Hsvc. split; [done|]. right. exists t.
    split; [done|]. split; [done|]. by split.
Qed.

(** X5. [check_connection] never raises: it answers [connected] when the
    health request (one retry) returned and [disconnected] otherwise, after
    at most two requests. *)
Theorem check_connection_answers (w : World) :
  exists up w',
    check_connection env w = (Ok (connection_status up), w')
    /\ (length (http_log w') <= length (http_log w) + 2)%nat
    /\ (up = true
        <-> exists b,
              fst (_make_request env "GET" "/api/health" None ∅ (Some 1) w)
              = Ok b).
Proof.
  destruct (make_request_outcome "GET" "/api/health" None ∅ (Some 1) w)
    as (_ & _ & Hlen & _).
  unfold check_connection, check_api_status, try_except, bind.
  destruct (_make_request env "GET" "/api/health" None ∅ (Some 1) w)
    as [[b|e] w1]; simpl in *.
  - exists true, w1. split; [done|]. split; [done|]. split; [by eexists|done].
  - exists false, w1. split; [done|]. split; [done|].
    split; [done|]. by intros [b ?].
Qed.

End Transport.

(** *** The theorems at concrete inputs *)

Lemma make_request_shape_witness :
  let out := _make_request (flaky_env 2 ok_reply) "GET"
               "/api/driver2/profile" None ∅ None new_world in
  let req := request_for (svc new_world) "GET" "/api/driver2/profile"
               None ∅ in
  http_log (snd out) = [req; req; req]
  /\ sleeps (snd out) = [inject_Z 2; inject_Z 1]
  /\ exists k,
       (1 <= k <= 4)%nat
       /\ http_log (snd out) = repeat req k ++ []
       /\ sleeps (snd out)
          = rev (map (fun attempt : nat =>
                        Qmult (inject_Z 1) (inject_Z (2 ^ Z.of_nat attempt)))
                     (seq 0 (k - 1)))
            ++ [].
Proof.
  intros out req.
  split; [vm_compute; reflexivity|]. split; [vm_compute; reflexivity|].
  destruct (make_request_shape (flaky_env 2 ok_reply) "GET"
              "/api/driver2/profile" None ∅ None new_world)
    as (k & Hk & Hlog & Hsl & _).
  { vm_compute. discriminate. }
  exists k. split; [exact Hk|]. split; [exact Hlog|exact Hsl].
Defined.

Lemma make_request_negative_retries_witness :
  let out := _make_request (env_of ok_reply) "GET" "/api/health" None ∅
               (Some (-1)) new_world in
  fst out = Raise (APIConnectionError "Request failed for unknown reason")
  /\ http_log (snd out) = [] /\ sleeps (snd out) = [].
Proof.
  apply (make_request_negative_retries (env_of ok_reply) "GET" "/api/health"
           None ∅ (Some (-1)) new_world).
  reflexivity.
Defined.

Lemma make_request_http_error_witness :
  let out := _make_request (env_of error_reply) "POST" "/api/driver2/status"
               None ∅ None new_world in
  (exists m, fst out = Raise (APIConnectionError m))
  /\ length (http_log (snd out)) = 1%nat
  /\ sleeps (snd out) = [].
Proof.
  intros out.
  destruct (make_request_http_error (env_of error_reply) "POST"
              "/api/driver2/status" None ∅ None new_world 500
              {[ "success" := rbool false;
                 "message" := rstr "Internal Server Error" ]})
    as (H1 & H2 & H3).
  { vm_compute. discriminate. }
  { vm_compute. discriminate. }
  { intros req. reflexivity. }
  split; [eexists; exact H1|]. split; [exact H2|exact H3].
Defined.

End TransportProps.

(** ** The propagation policy *)

Module PolicyProps.

Import Api ApiProps Shapes TransportProps.

Section Policy.
Variable env : Env.

(** What [_make_request] returns is a JSON reply of the server with a
    status below 400, as it was sent. *)
Lemma attempts_returned req endpoint retries remaining a w b w' :
  attempts env req endpoint retries remaining a w = (Ok b, w') ->
  exists n status, server env n req = JsonReply status b /\ status < 400.
Proof.
  revert a w. induction remaining as [|remaining IH]; intros a w; [done|].
  rewrite attempts_step.
  destruct (read_reply env endpoint (server env (length (http_log w)) req))
    as [b'|e] eqn:Hr.
  - intros [= <- <-]. unfold read_reply in Hr.
    destruct (server env (length (http_log w)) req)
      as [e|e|status d|status t je|status t je] eqn:Hx; try discriminate Hr.
    destruct (status >=? 400) eqn:Hst.
    + destruct (body_get d "error") as [found|e]; [|discriminate Hr].
      destruct (status =? 401); discriminate Hr.
    + injection Hr as <-. exists (length (http_log w)), status.
      split; [done|]. rewrite Z.geb_leb in Hst. apply Z.leb_gt in Hst. lia.
  - destruct e; try done.
    destruct (Z.of_nat a <? retries); [apply IH|done].
Qed.

Lemma verb_answers (v : Verb) (w : World) :
  exists b w',
    run_verb env v w = (Ok b, w')
    /\ ((exists n req status,
           server env n req = JsonReply status b /\ status < 400)
        \/ exists m,
             b = BObj {[ "success" := rbool false;
                         "error" := rstr m;
                         "endpoint" := rstr (verb_endpoint v);
                         "timestamp" := RVal (PFloat (now env)) ]}).
Proof.
  rewrite verb_unfold. unfold try_except.
  set (m := match v with
            | VGet e params => _make_request env "GET" e None params None
            | VPost e data => _make_request env "POST" e data ∅ None
            | VPut e data => _make_request env "PUT" e data ∅ None
            | VDelete e => _make_request env "DELETE" e None ∅ None
            end).
  destruct (m w) as [[b|e] w1] eqn:Hm.
  - exists b, w1. split; [done|]. left.
    unfold m in Hm. destruct v; rewrite make_request_unfold in Hm;
      apply attempts_returned in Hm as (n & status & H1 & H2); by eexists _, _, _.
  - eexists _, _. split; [reflexivity|]. right. by eexists.
Qed.

Lemma check_connection_result (w : World) :
  exists (up : bool) w',
    check_connection env w
    = (Ok (if up
           then {[ "success" := rbool true; "status" := rstr "connected" ]}
           else {[ "success" := rbool false;
                   "status" := rstr "disconnected" ]}), w').
Proof.
  unfold check_connection, check_api_status, try_except, bind.
  destruct (_make_request env "GET" "/api/health" None ∅ (Some 1) w)
    as [[b|e] w1]; simpl.
  - by exists true, w1.
  - by exists false, w1.
Qed.

Lemma change_base_url_outcome (u : string) (w : World) :
  match change_base_url env u w with
  | (Ok r, _) => r = true
  | (Raise e, _) =>
      e = ValueError "Nowy adres URL nie może być pusty"
      \/ e = OtherError "keyring error"
  end.
Proof.
  unfold change_base_url, try_except, bind.
  destruct (bool_decide (u = "") || bool_decide (strip u = ""));
    [by left|].
  unfold set_password_entry, kr_op.
  destruct (kr_fault env (keyring_ops w)); [by right|done].
Qed.

(** The methods that answer with something else than a dictionary catch
    everything too. *)
Lemma helpers_return (ph pw : string) (url : option string) (w : World) :
  (exists w', save_credentials env ph pw url w = (Ok tt, w'))
  /\ (exists c w', load_saved_credentials env w = (Ok c, w'))
  /\ (exists u w', load_saved_api_url env w = (Ok u, w'))
  /\ (exists up w', check_api_status env w = (Ok up, w')).
Proof.
  split; [|split; [|split]].
  - unfold save_credentials, try_except.
    match goal with |- context [match ?m w with _ => _ end] =>
      destruct (m w) as [[[]|e] w1] end; by eexists.
  - unfold load_saved_credentials, try_except.
    match goal with |- context [match ?m w with _ => _ end] =>
      destruct (m w) as [[c|e] w1] end; by eexists _, _.
  - unfold load_saved_api_url, try_except.
    match goal with |- context [match ?m w with _ => _ end] =>
      destruct (m w) as [[c|e] w1] end; by eexists _, _.
  - unfold check_api_status, try_except.
    match goal with |- context [match ?m w with _ => _ end] =>
      destruct (m w) as [[c|e] w1] end; by eexists _, _.
Qed.

(** C2, as amended. Whatever the server and the credential store do:
    login, auto-login, logout, the authenticated endpoint methods and the
    two order-detail methods never raise and return a dictionary with a
    boolean [success] and, when it is false, a [message] entry, which is a
    string whenever the messages the server sends are strings; [get],
    [post], [put] and [delete] never raise either, and return the JSON
    reply of the server as it is or else the error report, whose text is
    under [error] and which has no [message] entry; [check_connection]
    never raises and returns [success] with a [status], without
    [message]; [save_credentials], [load_saved_credentials],
    [load_saved_api_url] and [check_api_status] never raise and return
    no dictionary; [change_base_url] returns [True] or raises, a
    [ValueError] or the error of the credential store. *)
Theorem operations_answer (op : Operation) (v : Verb) (u ph pw : string)
    (url : option string) (w : World) :
  (exists r w',
     perform env op w = (Ok r, w')
     /\ normalized r
     /\ (string_messages env -> message_is_string r))
  /\ (exists b w',
        run_verb env v w = (Ok b, w')
        /\ ((exists n req status,
               server env n req = JsonReply status b /\ status < 400)
            \/ exists m,
                 b = BObj {[ "success" := rbool false;
                             "error" := rstr m;
                             "endpoint" := rstr (verb_endpoint v);
                             "timestamp" := RVal (PFloat (now env)) ]}))
  /\ (exists (up : bool) w',
        check_connection env w
        = (Ok (if up
               then {[ "success" := rbool true;
                       "status" := rstr "connected" ]}
               else {[ "success" := rbool false;
                       "status" := rstr "disconnected" ]}), w'))
  /\ ((exists w', save_credentials env ph pw url w = (Ok tt, w'))
      /\ (exists c w', load_saved_credentials env w = (Ok c, w'))
      /\ (exists saved w', load_saved_api_url env w = (Ok saved, w'))
      /\ (exists up w', check_api_status env w = (Ok up, w')))
  /\ match change_base_url env u w with
     | (Ok r, _) => r = true
     | (Raise e, _) =>
         e = ValueError "Nowy adres URL nie może być pusty"
         \/ e = OtherError "keyring error"
     end.
Proof.
  split; [apply perform_answers|].
  split; [apply verb_answers|].
  split; [apply check_connection_result|].
  split; [apply helpers_return|apply change_base_url_outcome].
Qed.

End Policy.

Lemma operations_answer_witness :
  let env := env_of (NetworkFailure "down") in
  (exists r w',
     perform env (Authenticated (UpdateLocation (Qmake 5223 100)
                                                (Qmake 2101 100)))
             logged_in_world
     = (Ok r, w')
     /\ normalized r)
  /\ (exists b w',
        run_verb env (VDelete "/api/driver2/orders/7") new_world = (Ok b, w')
        /\ exists m,
             b = BObj {[ "success" := rbool false;
                         "error" := rstr m;
                         "endpoint" := rstr "/api/driver2/orders/7";
                         "timestamp" := RVal (PFloat (now env)) ]}).
Proof.
  intros env.
  destruct (operations_answer env
              (Authenticated (UpdateLocation (Qmake 5223 100)
                                             (Qmake 2101 100)))
              (VDelete "/api/driver2/orders/7") "" "" "" None
              logged_in_world)
    as ((r & w' & H & Hn & _) & _).
  destruct (operations_answer env
              (Authenticated (UpdateLocation (Qmake 5223 100)
                                             (Qmake 2101 100)))
              (VDelete "/api/driver2/orders/7") "" "" "" None new_world)
    as (_ & (b & w2 & Hv & [(n & req & status & Hx & _)|Hm]) & _).
  - discriminate Hx.
  - split; [by exists r, w'|]. by exists b, w2.
Defined.

End PolicyProps.

Module SessionProps.

Import Api ApiProps Shapes.

Section Login.
Variable env : Env.

Lemma login_world ph pw url w :
  let w' := snd (login env ph pw url w) in
  http_log w' = http_log w /\ sleeps w' = sleeps w
  /\ keyring w' = keyring w
  /\ is_logged_in (svc w') = is_logged_in (svc w)
  /\ driver_id (svc w') = driver_id (svc w)
  /\ phone (svc w') = Some ph /\ password (svc w') = Some pw
  /\ auth_header (svc w') = Some (basic_auth env ph pw)
  /\ base_url (svc w') = Some (login_url_of url w).
Proof.
  cbv zeta. rewrite login_result. simpl. unfold str_or.
  rewrite login_url_truthy. by repeat split.
Qed.

(** X6. As the code stands no login gets through: the options of the
    request name the method, which [session.request] is then given twice,
    so the call is rejected before anything is sent. [login] answers
    [{success: False, message: "Błąd połączenia: <text of the TypeError>"}],
    sends and stores nothing and leaves the login flag and the driver id
    alone; the service holds the credentials and the URL of the attempt
    all the same. *)
Theorem login_never_sent ph pw url w :
  let out := login env ph pw url w in
  fst out
  = Ok {[ "success" := rbool false;
          "message" := rstr ("Błąd połączenia: " +:+ method_twice env) ]}
  /\ http_log (snd out) = http_log w
  /\ sleeps (snd out) = sleeps w
  /\ keyring (snd out) = keyring w
  /\ is_logged_in (svc (snd out)) = is_logged_in (svc w)
  /\ driver_id (svc (snd out)) = driver_id (svc w)
  /\ phone (svc (snd out)) = Some ph
  /\ password (svc (snd out)) = Some pw
  /\ auth_header (svc (snd out)) = Some (basic_auth env ph pw)
  /\ base_url (svc (snd out)) = Some (login_url_of url w).
Proof.
  intros out. split; [unfold out; by rewrite login_result|].
  apply login_world.
Qed.

(** X8. A login the server does not accept (or that fails in transport)
    answers [success: False] and leaves the login flag, the driver id and
    the credential store as they were; the credentials and the URL of the
    service are those of the failed attempt all the same. *)
Theorem login_refused ph pw url w :
  let U := login_url_of url w in
  login_accepts (server env (length (http_log w)) (login_request env ph pw U))
  = false ->
  let out := login env ph pw url w in
  (exists r, fst out = Ok r /\ r !! "success" = Some (rbool false))
  /\ is_logged_in (svc (snd out)) = is_logged_in (svc w)
  /\ driver_id (svc (snd out)) = driver_id (svc w)
  /\ keyring (snd out) = keyring w
  /\ auth_header (svc (snd out)) = Some (basic_auth env ph pw)
  /\ base_url (svc (snd out)) = Some U.
Proof.
  intros U _ out.
  destruct (login_world ph pw url w)
    as (_ & _ & Hk & Hin & Hd & _ & _ & Ha & Hb).
  split; [|done]. unfold out. rewrite login_result. simpl.
  eexists. split; [done|]. apply failure_success.
Qed.

Lemma str_truthy_some s : s <> "" -> str_truthy (Some s) = true.
Proof. by destruct s. Qed.

Lemma load_saved_credentials_none w :
  str_truthy (keyring w !! "phone") && str_truthy (keyring w !! "password")
  = false
  \/ kr_fault env (keyring_ops w) = true
  \/ kr_fault env (S (keyring_ops w)) = true ->
  exists w', load_saved_credentials env w = (Ok None, w')
             /\ svc w' = svc w /\ http_log w' = http_log w
             /\ keyring w' = keyring w /\ sleeps w' = sleeps w.
Proof.
  intros H. unfold load_saved_credentials, try_except, bind, get_password,
    kr_op.
  destruct (kr_fault env (keyring_ops w)) eqn:H1; simpl; [by eexists|].
  destruct (kr_fault env (S (keyring_ops w))) eqn:H2; simpl; [by eexists|].
  destruct H as [H|[H|H]]; [|done..]. rewrite H. simpl. by eexists.
Qed.

Lemma load_saved_credentials_some ph pw w :
  store_ok env ->
  keyring w !! "phone" = Some ph -> keyring w !! "password" = Some pw ->
  ph <> "" -> pw <> "" ->
  exists w', load_saved_credentials env w = (Ok (Some (ph, pw)), w')
             /\ http_log w' = http_log w /\ keyring w' = keyring w
             /\ sleeps w' = sleeps w
             /\ is_logged_in (svc w') = is_logged_in (svc w)
             /\ phone (svc w') = Some ph /\ password (svc w') = Some pw
             /\ auth_header (svc w') = Some (basic_auth env ph pw)
             /\ base_url (svc w') = Some default_url.
Proof.
  intros Hs Hph Hpw Hne1 Hne2.
  unfold load_saved_credentials, try_except, bind, get_password.
  rewrite !kr_op_ok by done. simpl. rewrite Hph, Hpw.
  rewrite !str_truthy_some by done. simpl. by eexists.
Qed.

(** X10. With no usable saved credentials (an entry missing or empty, or
    the store failing on either read) [auto_login] answers that none are
    saved; it sends nothing and leaves the service and the store alone. *)
Theorem auto_login_no_credentials w :
  str_truthy (keyring w !! "phone") && str_truthy (keyring w !! "password")
  = false
  \/ kr_fault env (keyring_ops w) = true
  \/ kr_fault env (S (keyring_ops w)) = true ->
  let out := auto_login env w in
  fst out = Ok (failure (rstr "Brak zapisanych danych logowania"))
  /\ svc (snd out) = svc w
  /\ http_log (snd out) = http_log w
  /\ keyring (snd out) = keyring w.
Proof.
  intros H. destruct (load_saved_credentials_none w H)
    as (w' & Hl & ? & ? & ? & ?).
  cbv zeta. unfold auto_login, try_except, bind. rewrite Hl. simpl. done.
Qed.

(** X11. With saved credentials [auto_login] sets the service up with
    them and with the default URL, whatever URL the service held before
    and whatever URL is saved in the store, and attempts the login, which
    is rejected before anything is sent: the answer is the failure of
    [login], the login flag is as before. *)
Theorem auto_login_default_url ph pw w :
  store_ok env ->
  keyring w !! "phone" = Some ph -> keyring w !! "password" = Some pw ->
  ph <> "" -> pw <> "" ->
  let out := auto_login env w in
  fst out
  = Ok {[ "success" := rbool false;
          "message" := rstr ("Błąd połączenia: " +:+ method_twice env) ]}
  /\ http_log (snd out) = http_log w
  /\ base_url (svc (snd out)) = Some default_url
  /\ phone (svc (snd out)) = Some ph
  /\ password (svc (snd out)) = Some pw
  /\ auth_header (svc (snd out)) = Some (basic_auth env ph pw)
  /\ is_logged_in (svc (snd out)) = is_logged_in (svc w).
Proof.
  intros Hs Hph Hpw Hne1 Hne2.
  destruct (load_saved_credentials_some ph pw w Hs Hph Hpw Hne1 Hne2)
    as (w' & Hl & Hlog & _ & _ & Hin & _ & _ & _ & Hb).
  cbv zeta. unfold auto_login, try_except, bind. rewrite Hl.
  destruct (login_world ph pw None w')
    as (Hlog' & _ & _ & Hin' & _ & Hp1 & Hp2 & Ha & Hb').
  assert (HU : login_url_of None w' = default_url).
  { unfold login_url_of, str_or. simpl. by rewrite Hb. }
  rewrite HU in Hb'.
  rewrite login_result in *. simpl in *.
  repeat split; try done; congruence.
Qed.

Lemma save_credentials_entries ph pw url w :
  store_ok env ->
  keyring (snd (save_credentials env ph pw url w)) !! "phone" = Some ph
  /\ keyring (snd (save_credentials env ph pw url w)) !! "password" = Some pw
  /\ svc (snd (save_credentials env ph pw url w)) = svc w
  /\ http_log (snd (save_credentials env ph pw url w)) = http_log w.
Proof.
  intros Hs. unfold save_credentials, try_except, bind, set_password_entry,
    get. rewrite !kr_op_ok by done. simpl.
  destruct (str_truthy (str_or url (base_url (svc w)))).
  - rewrite kr_op_ok by done. simpl.
    rewrite !lookup_insert_ne by done. rewrite lookup_insert_eq.
    rewrite lookup_insert_ne by done. by rewrite lookup_insert_eq.
  - simpl. rewrite lookup_insert_ne by done. by rewrite !lookup_insert_eq.
Qed.

(** X12. What [save_credentials] stored, [load_saved_credentials] gives
    back, and the service is set up with it; the base URL however is the
    default one afterwards, not the one that was saved. *)
Theorem credentials_round_trip ph pw url w :
  store_ok env -> ph <> "" -> pw <> "" ->
  let out := load_saved_credentials env
               (snd (save_credentials env ph pw url w)) in
  fst out = Ok (Some (ph, pw))
  /\ phone (svc (snd out)) = Some ph
  /\ password (svc (snd out)) = Some pw
  /\ auth_header (svc (snd out)) = Some (basic_auth env ph pw)
  /\ base_url (svc (snd out)) = Some default_url.
Proof.
  intros Hs Hne1 Hne2.
  destruct (save_credentials_entries ph pw url w Hs) as (Hph & Hpw & _ & _).
  destruct (load_saved_credentials_some ph pw _ Hs Hph Hpw Hne1 Hne2)
    as (w' & Hl & _ & _ & _ & _ & ? & ? & ? & ?).
  cbv zeta. rewrite Hl. done.
Qed.

End Login.

Section Logout.
Variable env : Env.

Lemma logout_resets w :
  hoare (fun s => s = w) (logout env)
    (fun r s =>
       r = logged_out_result
       /\ svc s = reset_service (svc w)
       /\ (length (http_log s) <= length (http_log w) + 1)%nat
       /\ (is_logged_in (svc w) = false -> http_log s = http_log w)
       /\ sleeps s = sleeps w)
    nothing.
Proof.
  unfold logout.
  set (I := fun s : World =>
              reset_service (svc s) = reset_service (svc w)
              /\ (length (http_log s) <= length (http_log w) + 1)%nat
              /\ (is_logged_in (svc w) = false -> http_log s = http_log w)
              /\ sleeps s = sleeps w).
  eapply hoare_try with (E1 := nothing); [|by intros e s []].
  apply hoare_bind_get_at.
  eapply hoare_bind with (Q1 := fun _ => I).
  { intros s ->. destruct (is_logged_in (svc w)) eqn:Hin.
    - unfold bind. rewrite (auth_fetch_rejected _ _ _ "POST") by done. simpl.
      unfold I, with_fallback_url. destruct (negb _); simpl;
        repeat split; (lia || done).
    - unfold I. simpl. repeat split; (lia || done). }
  intros ?; cbv beta.
  eapply hoare_bind with (Q1 := fun _ => I).
  { eapply hoare_try with (E1 := fun _ => I); [|intros e; by apply hoare_ret].
    eapply hoare_bind with (Q1 := fun _ => I).
    - apply hoare_delete_password. by intros s k n.
    - intros ?; cbv beta. apply hoare_delete_password. by intros s k n. }
  intros ?; cbv beta.
  eapply hoare_bind
    with (Q1 := fun _ s => svc s = reset_service (svc w)
                           /\ (length (http_log s) <= length (http_log w) + 1)%nat
                           /\ (is_logged_in (svc w) = false ->
                               http_log s = http_log w)
                           /\ sleeps s = sleeps w).
  { intros s (Hr & Hl & Hn & Hs). simpl. by rewrite <- Hr. }
  intros ?; cbv beta. by apply hoare_ret.
Qed.

(** X13. [logout] always succeeds and always clears the session, whatever the
    server and the credential store do: it answers
    [{success: True, message: "Wylogowano pomyślnie"}], leaves the service
    as [reset] does, sends at most one request (none when logged out) and
    does not wait. *)
Theorem logout_always_resets (w : World) :
  let out := logout env w in
  fst out = Ok logged_out_result
  /\ svc (snd out) = reset_service (svc w)
  /\ (length (http_log (snd out)) <= length (http_log w) + 1)%nat
  /\ (is_logged_in (svc w) = false -> http_log (snd out) = http_log w)
  /\ sleeps (snd out) = sleeps w.
Proof.
  intros out. pose proof (logout_resets w w eq_refl) as H. unfold out.
  destruct (logout env w) as [[r|e] w']; [|done].
  destruct H as (-> & H). done.
Qed.

(** X14. After a logout every authenticated call is answered locally: no
    request is sent and the world stays as the logout left it. *)
Theorem no_request_after_logout (c : AuthCall) (w : World) :
  let w1 := snd (logout env w) in
  run_auth env c w1 = (Ok (on_failure (svc w1) c not_logged_in_msg), w1).
Proof.
  intros w1. apply run_auth_on_failure. apply auth_fetch_logged_out.
  pose proof (logout_resets w w eq_refl) as H. unfold w1.
  destruct (logout env w) as [[r|e] w']; [|done].
  simpl. destruct H as (_ & Hs & _). by rewrite Hs.
Qed.

(** X15. A [change_base_url] that raises has changed neither the session nor
    the stored entries; it raises [ValueError] on an input that is empty
    once stripped and the store's error otherwise. *)
Theorem change_base_url_failure (u : string) (w : World) (e : Exn)
    (w' : World) :
  change_base_url env u w = (Raise e, w') ->
  svc w' = svc w /\ keyring w' = keyring w /\ http_log w' = http_log w
  /\ ((strip u = "" /\ e = ValueError "Nowy adres URL nie może być pusty")
      \/ (strip u <> "" /\ kr_fault env (keyring_ops w) = true
          /\ e = OtherError "keyring error")).
Proof.
  unfold change_base_url, try_except, bind.
  destruct (bool_decide (u = "") || bool_decide (strip u = "")) eqn:Hempty.
  - intros [= <- <-]. repeat split; try done. left. split; [|done].
    apply orb_true_iff in Hempty as [H|H]; apply bool_decide_eq_true in H;
      [by subst|done].
  - apply orb_false_iff in Hempty as [_ Hs]. apply bool_decide_eq_false in Hs.
    unfold set_password_entry, kr_op.
    destruct (kr_fault env (keyring_ops w)) eqn:Hf; [|done].
    intros [= <- <-]. repeat split; try done. by right.
Qed.

Lemma has_scheme_nonempty s : has_scheme s = true -> s <> "".
Proof. by intros H ->. Qed.

Lemma load_saved_api_url_ok w u :
  store_ok env -> keyring w !! "api_url" = Some u -> u <> "" ->
  load_saved_api_url env w
  = (Ok (Some u),
     snd (set_base_url (Some u)
            (mkWorld (svc w) (keyring w) (S (keyring_ops w)) (http_log w)
                     (sleeps w)))).
Proof.
  intros Hstore Hk Hu. unfold load_saved_api_url, try_except, bind, get_password.
  rewrite kr_op_ok by done. simpl. rewrite Hk. simpl.
  rewrite bool_decide_eq_false_2 by done. done.
Qed.

(** X16. The URL set by [change_base_url] survives a logout in the credential
    store: the logout clears the session's base URL, and
    [load_saved_api_url] then returns the URL that was set and puts it
    back. *)
Theorem base_url_survives_logout (u : string) (w : World) (r : bool)
    (w1 : World) :
  store_ok env ->
  change_base_url env u w = (Ok r, w1) ->
  let w2 := snd (logout env w1) in
  let out := load_saved_api_url env w2 in
  base_url (svc w2) = None
  /\ fst out = Ok (Some (formatted_url u))
  /\ base_url (svc (snd out)) = Some (formatted_url u).
Proof.
  intros Hstore Hc w2 out.
  apply change_base_url_ok in Hc as (_ & _ & _ & Hk).
  assert (Hk2 : keyring w2 !! "api_url" = Some (formatted_url u)).
  { unfold w2. by rewrite logout_keeps_other_entries by done. }
  assert (Hb : base_url (svc w2) = None).
  { pose proof (logout_resets w1 w1 eq_refl) as H. unfold w2.
    destruct (logout env w1) as [[r'|e] w']; [|done].
    simpl. destruct H as (_ & Hs & _). by rewrite Hs. }
  split; [done|]. unfold out.
  rewrite (load_saved_api_url_ok w2 (formatted_url u)); try done.
  apply has_scheme_nonempty, has_scheme_formatted.
Qed.

End Logout.

(** *** The theorems at concrete inputs *)

Lemma login_refused_witness :
  let out := login (env_of error_reply) "+48999000111" "guess" None
                   logged_in_world in
  is_logged_in (svc (snd out)) = true
  /\ driver_id (svc (snd out)) = Some 15
  /\ auth_header (svc (snd out))
     = Some (basic_auth (env_of error_reply) "+48999000111" "guess").
Proof.
  intros out.
  destruct (login_refused (env_of error_reply) "+48999000111" "guess" None
              logged_in_world) as (_ & H1 & H2 & _ & H3 & _).
  { reflexivity. }
  split; [exact H1|]. split; [exact H2|exact H3].
Defined.

Lemma auto_login_no_credentials_witness :
  let out := auto_login (env_of ok_reply) new_world in
  fst out = Ok (failure (rstr "Brak zapisanych danych logowania"))
  /\ svc (snd out) = svc new_world
  /\ http_log (snd out) = http_log new_world
  /\ keyring (snd out) = keyring new_world.
Proof.
  apply (auto_login_no_credentials (env_of ok_reply) new_world).
  left. reflexivity.
Defined.

Lemma auto_login_default_url_witness :
  let out := auto_login (env_of ok_reply) saved_world in
  http_log (snd out) = []
  /\ base_url (svc (snd out)) = Some default_url
  /\ is_logged_in (svc (snd out)) = false.
Proof.
  intros out.
  destruct (auto_login_default_url (env_of ok_reply) "+48111222333" "pw"
              saved_world (fun _ => eq_refl) eq_refl eq_refl)
    as (_ & H1 & H2 & _ & _ & _ & H3); [discriminate|discriminate|].
  split; [exact H1|]. split; [exact H2|exact H3].
Defined.

Lemma credentials_round_trip_witness :
  let env := env_of ok_reply in
  let out := load_saved_credentials env
               (snd (save_credentials env "+48111222333" "pw"
                       (Some "https://taxi.example") new_world)) in
  fst out = Ok (Some ("+48111222333", "pw"))
  /\ base_url (svc (snd out)) = Some default_url.
Proof.
  intros env out.
  destruct (credentials_round_trip env "+48111222333" "pw"
              (Some "https://taxi.example") new_world (fun _ => eq_refl))
    as (H1 & _ & _ & _ & H2); [discriminate|discriminate|].
  split; [exact H1|exact H2].
Defined.

(** The input is a no-break space (U+00A0) between two spaces. *)
Lemma change_base_url_failure_witness :
  let out := change_base_url (env_of ok_reply) "   " logged_in_world in
  fst out = Raise (ValueError "Nowy adres URL nie może być pusty")
  /\ svc (snd out) = svc logged_in_world
  /\ keyring (snd out) = keyring logged_in_world.
Proof.
  intros out. split; [vm_compute; reflexivity|].
  destruct (change_base_url_failure (env_of ok_reply) "   " logged_in_world
              (ValueError "Nowy adres URL nie może być pusty")
              (snd (change_base_url (env_of ok_reply) "   " logged_in_world)))
    as (H1 & H2 & _).
  { vm_compute. reflexivity. }
  split; [exact H1|exact H2].
Defined.

(** The input starts with a no-break space (U+00A0) and ends with an em
    space (U+2003). *)
Lemma base_url_survives_logout_witness :
  let env := env_of ok_reply in
  let w1 := snd (change_base_url env " taxi.example.com/ "
                                 logged_in_world) in
  let w2 := snd (logout env w1) in
  base_url (svc w2) = None
  /\ fst (load_saved_api_url env w2) = Ok (Some "https://taxi.example.com").
Proof.
  intros env w1 w2.
  destruct (base_url_survives_logout env " taxi.example.com/ "
              logged_in_world true w1 (fun _ => eq_refl)) as (H1 & H2 & _).
  { vm_compute. reflexivity. }
  split; [exact H1|exact H2].
Defined.

End SessionProps.

Module EndpointProps.

Import Api ApiProps Shapes.

Section Endpoints.
Variable env : Env.

Lemma run_auth_world c w :
  is_action c = false -> is_logged_in (svc w) = true ->
  snd (run_auth env c w)
  = logged (auth_request w (endpoint_of c) (options_of c))
           (with_fallback_url w).
Proof.
  intros Hc Hin. pose proof (options_of_method c) as Hm.
  rewrite Hc in Hm.
  pose proof (auth_fetch_logged_in env (endpoint_of c) (options_of c) w Hin
                Hm) as Hf.
  destruct (run_auth_after_fetch env c w _ _ Hf) as [r Hr]. by rewrite Hr.
Qed.

(** X17. Logged in, with a base URL and a header in place, each of
    [check_order_pool], [get_current_orders] and [get_driver_profile]
    sends exactly one request: a GET of the base URL followed by the
    endpoint, as JSON and with the session's [Authorization] header. The
    session and the credential store stay as they are. *)
Theorem auth_call_request (c : AuthCall) (w : World) (u h : string) :
  is_action c = false ->
  is_logged_in (svc w) = true ->
  base_url (svc w) = Some u -> u <> "" -> auth_header (svc w) = Some h ->
  let w' := snd (run_auth env c w) in
  exists req,
    http_log w' = req :: http_log w
    /\ req_url req = u +:+ endpoint_of c
    /\ req_method req = "GET"
    /\ req_headers req !! "Authorization" = Some (PStr h)
    /\ req_headers req !! "Content-Type" = Some (PStr "application/json")
    /\ req_json req = None
    /\ svc w' = svc w /\ keyring w' = keyring w.
Proof.
  intros Hc Hin Hb Hu Hh w'. unfold w'. rewrite run_auth_world by done.
  assert (Hw : with_fallback_url w = w).
  { unfold with_fallback_url. rewrite Hb. simpl.
    by rewrite bool_decide_eq_false_2. }
  rewrite Hw. eexists. split; [done|]. unfold auth_request. rewrite Hw, Hb, Hh.
  simpl. split; [done|]. split; [by destruct c|].
  rewrite lookup_insert_ne by done. rewrite !lookup_insert_eq.
  split; [done|]. split; [done|]. split; [by destruct c|done].
Qed.

(** X18. Logged in, the order actions and the location and status updates
    never reach the server: their options name the method, which
    [session.request] is then given twice, and the call is rejected before
    anything is sent. Whatever the server would have said, the answer is
    [{success: False, message: <text of the TypeError>}]; nothing is sent
    and the credential store is not touched. *)
Theorem actions_never_sent (c : AuthCall) (w : World) :
  is_action c = true -> is_logged_in (svc w) = true ->
  let out := run_auth env c w in
  fst out = Ok {[ "success" := rbool false;
                  "message" := rstr (method_twice env) ]}
  /\ http_log (snd out) = http_log w
  /\ sleeps (snd out) = sleeps w
  /\ keyring (snd out) = keyring w.
Proof.
  intros Hc Hin. pose proof (options_of_method c) as Hm.
  rewrite Hc in Hm. cbv zeta.
  rewrite (run_auth_on_failure env c w (with_fallback_url w)
             (method_twice env))
    by (by apply (auth_fetch_rejected _ _ _ "POST")).
  simpl. split; [by destruct c|].
  unfold with_fallback_url. by destruct (negb _).
Qed.

Lemma normalize_current_list b r :
  normalize_current b = Ok r -> exists l, r !! "data" = Some (RList l).
Proof.
  unfold normalize_current, body_get. destruct b as [resp|ty]; [|done].
  destruct (opt_rtruthy (resp !! "success") && is_list (resp !! "data")) eqn:H1.
  { apply andb_true_iff in H1 as [_ H1].
    destruct (resp !! "data") as [[| l |]|]; try discriminate H1.
    intros [= <-]. by exists l. }
  destruct (is_success_str (resp !! "status") && is_list (resp !! "orders"))
    eqn:H2.
  { apply andb_true_iff in H2 as [_ H2].
    destruct (resp !! "orders") as [[| l |]|]; try discriminate H2.
    intros [= <-]. by exists l. }
  intros [= <-]. by exists [].
Qed.

(** X19. Whatever the server sends and whether or not the driver is logged
    in, [get_current_orders] answers with a list under [data]. *)
Theorem current_orders_is_list (w : World) :
  exists r l, fst (get_current_orders env w) = Ok r
              /\ r !! "data" = Some (RList l).
Proof.
  destruct (auth_fetch_answers env "/api/driver2/orders/current" no_options w)
    as (b & w' & Hf & _).
  unfold get_current_orders, try_except, bind. rewrite Hf. unfold lift.
  destruct (normalize_current b) as [r|e] eqn:Hn; simpl.
  - destruct (normalize_current_list b r Hn) as [l Hl]. by exists r, l.
  - eexists _, []. split; [done|]. done.
Qed.

(** X20. Without an answer from the server (logged out, or the request
    failing in transport) [get_order_details] reports the order as not
    found, and [get_order_storage_details] answers success with the
    built-in sample order carrying the id asked for; the reason is not
    passed on. *)
Theorem order_details_without_server (order_id : Z) (w : World) (e : string) :
  is_logged_in (svc w) = false
  \/ (forall req, server env (length (http_log w)) req = NetworkFailure e) ->
  fst (get_order_details env order_id w)
  = Ok (failure (rstr "Zlecenie nie znalezione"))
  /\ fst (get_order_storage_details env order_id w)
     = Ok (data_result (RDict (fallback_order order_id))).
Proof.
  intros H.
  assert (Hf : forall endpoint, exists m w',
             _auth_fetch env endpoint no_options w
             = (Ok (BObj (failure (rstr m))), w')).
  { intros endpoint. destruct (is_logged_in (svc w)) eqn:Hin.
    - destruct H as [H|H]; [done|].
      rewrite auth_fetch_logged_in, H by done. by eexists _, _.
    - rewrite auth_fetch_logged_out by done. by eexists _, _. }
  split.
  - destruct (Hf ("/api/driver2/orders/" +:+ pretty order_id))
      as (m & w' & Hm).
    unfold get_order_details, try_except, bind. rewrite Hm.
    unfold lift, body_get. by rewrite failure_success.
  - destruct (Hf ("/api/driver2/order_storage/" +:+ pretty order_id))
      as (m & w' & Hm).
    unfold get_order_storage_details, try_except, bind. rewrite Hm.
    unfold lift, body_get. by rewrite failure_success.
Qed.

End Endpoints.

(** *** The theorems at concrete inputs *)

Lemma auth_call_request_witness :
  exists req,
    http_log (snd (run_auth (env_of ok_reply) GetDriverProfile
                            logged_in_world))
    = [req]
    /\ req_url req = "https://taxi.example/api/driver2/profile"
    /\ req_method req = "GET"
    /\ req_headers req !! "Authorization" = Some (PStr "Basic abc").
Proof.
  destruct (auth_call_request (env_of ok_reply) GetDriverProfile
              logged_in_world "https://taxi.example" "Basic abc"
              eq_refl eq_refl eq_refl) as (req & H1 & H2 & H3 & H4 & _);
    [discriminate|reflexivity|].
  exists req. split; [exact H1|]. split; [exact H2|].
  split; [exact H3|exact H4].
Defined.

Lemma actions_never_sent_witness :
  let env := env_of ok_reply in
  let out := run_auth env (StartOrder 7) logged_in_world in
  fst out = Ok {[ "success" := rbool false;
                  "message" := rstr (method_twice env) ]}
  /\ http_log (snd out) = [].
Proof.
  intros env out.
  destruct (actions_never_sent env (StartOrder 7) logged_in_world
              eq_refl eq_refl) as (H1 & H2 & _).
  split; [exact H1|exact H2].
Defined.

Lemma order_details_without_server_witness :
  fst (get_order_details (env_of ok_reply) 7 new_world)
  = Ok (failure (rstr "Zlecenie nie znalezione"))
  /\ fst (get_order_storage_details (env_of ok_reply) 7 new_world)
     = Ok (data_result (RDict (fallback_order 7))).
Proof.
  apply (order_details_without_server (env_of ok_reply) 7 new_world "").
  left. reflexivity.
Defined.

End EndpointProps.

(** ** Further properties of the reconciler *)

Module DisplayProps.

Import Reconciler ReconcilerProps Display.

Lemma tick_keeps_status reply s :
  driver_status (step (Tick reply) s) = driver_status s
  /\ sound_service (step (Tick reply) s) = sound_service s.
Proof.
  simpl.
  destruct (check_order_pool_cases reply s)
    as [->|[(r & _ & _ & _ & ->)
       |[(r & cur & _ & _ & _ & _ & _ & _ & ->)
       |(r & first & rest & _ & _ & _ & _ & _ & ->)]]].
  - done.
  - done.
  - unfold vanish, bind. simpl. destruct (order_dialog s); split; reflexivity.
  - unfold present, bind.
    destruct (sound_service s) eqn:E; simpl; by rewrite ?E.
Qed.

Lemma offline_tick reply s :
  driver_status s = "offline" -> step (Tick reply) s = s.
Proof.
  intros H. simpl. unfold check_order_pool, check_order_pool_body,
    try_except, bind, get. simpl. by rewrite bool_decide_eq_true_2.
Qed.

(** X21. While the driver is offline the screen ignores every poll, with
    whatever reply, and every failed status fetch: nothing is shown,
    stored or emitted. A fresh screen is offline. *)
Theorem offline_polls_ignored (inputs : list Input) (s : MapScreen) :
  driver_status s = "offline" ->
  Forall (fun i => i <> StatusFetched true) inputs ->
  run inputs s = s.
Proof.
  intros Hoff H. induction H as [|i inputs Hi _ IH]; [done|].
  change (run inputs (step i s) = s).
  assert (Hstep : step i s = s).
  { destruct i as [reply|[|]]; [by apply offline_tick|done|done]. }
  by rewrite Hstep.
Qed.

(** X22. Polls never change the driver status; it is "online" as soon as
    one status fetch has succeeded and stays so. *)
Theorem status_online_for_good (inputs : list Input) (s : MapScreen) :
  driver_status (run inputs s)
  = if status_fetched inputs then "online" else driver_status s.
Proof.
  revert s. induction inputs as [|i inputs IH]; intros s; [done|].
  change (driver_status (run inputs (step i s))
          = if status_fetched (i :: inputs) then "online"
            else driver_status s).
  rewrite IH. destruct i as [reply|[|]].
  - destruct (tick_keeps_status reply s) as [-> _]. done.
  - simpl. by destruct (status_fetched inputs).
  - done.
Qed.

Lemma acceptable_orders_cons o l :
  acceptable_orders (o :: l)
  = match acceptable o with
    | Raise e => Raise e
    | Ok keep =>
        match acceptable_orders l with
        | Raise e => Raise e
        | Ok rest => Ok (if keep then o :: rest else rest)
        end
    end.
Proof. reflexivity. Qed.

Lemma acceptable_orders_total l :
  Forall (fun o => exists b, acceptable o = Ok b) l ->
  exists l', acceptable_orders l = Ok l'.
Proof.
  induction 1 as [|o l [b Hb] _ [l' IH]]; [by exists []|].
  rewrite acceptable_orders_cons, Hb, IH. by eexists.
Qed.

Lemma acceptable_orders_first skipped first rest :
  Forall (fun o => acceptable o = Ok false) skipped ->
  acceptable first = Ok true ->
  Forall (fun o => exists b, acceptable o = Ok b) rest ->
  exists rest', acceptable_orders (skipped ++ first :: rest)
                = Ok (first :: rest').
Proof.
  intros Hsk Hf Hrest. destruct (acceptable_orders_total rest Hrest)
    as [rest' Hr].
  exists rest'. induction Hsk as [|o skipped Ho _ IH]; simpl.
  - by rewrite acceptable_orders_cons, Hf, Hr.
  - by rewrite acceptable_orders_cons, Ho, IH.
Qed.

Lemma acceptable_orders_raises o l e :
  In o l -> acceptable o = Raise e -> exists e', acceptable_orders l = Raise e'.
Proof.
  intros Hin Ho. induction l as [|o' l IH]; [done|].
  rewrite acceptable_orders_cons. destruct Hin as [->|Hin].
  - rewrite Ho. by eexists.
  - destruct (acceptable o') as [keep|e1]; [|by eexists].
    destruct (IH Hin) as [e' ->]. by eexists.
Qed.

Lemma check_order_pool_present s r first rest :
  driver_status s <> "offline" -> get_truthy r "success" = true ->
  show_pool_order s = false ->
  acceptable_orders (snapshot_of r) = Ok (first :: rest) ->
  snd (check_order_pool (ApiReturned r) s) = present first (snapshot_of r) s.
Proof.
  intros Hoff Hs Hshow Hacc.
  unfold check_order_pool, check_order_pool_body, try_except, bind, get,
    lift, ret.
  simpl. rewrite bool_decide_eq_false_2 by done.
  rewrite Hs, Hshow. simpl.
  destruct (snapshot_of r) as [|o l] eqn:Hsnap; [done|].
  rewrite Hacc. unfold present, bind. by destruct (sound_service s).
Qed.

Lemma check_order_pool_dropped s r e :
  driver_status s <> "offline" -> get_truthy r "success" = true ->
  show_pool_order s = false ->
  acceptable_orders (snapshot_of r) = Raise e ->
  snd (check_order_pool (ApiReturned r) s) = s.
Proof.
  intros Hoff Hs Hshow Hacc.
  unfold check_order_pool, check_order_pool_body, try_except, bind, get,
    lift, ret.
  simpl. rewrite bool_decide_eq_false_2 by done.
  rewrite Hs, Hshow. simpl.
  destruct (snapshot_of r) as [|o l] eqn:Hsnap; [done|].
  by rewrite Hacc.
Qed.

Lemma events_present first l s :
  events (present first l s)
  = rev (present_events (sound_service s) (dialogs_created s) first)
    ++ events s.
Proof.
  unfold present, present_events, bind. by destruct (sound_service s).
Qed.

(** X23. With the driver online and nothing shown, a successful poll shows
    the first order of the snapshot whose status is empty, "new" or
    "pending" (in any letter case): the orders before it are passed over,
    the sound is played when there is a sound service, one dialog is
    opened for that order, the new-order toast follows, and the snapshot
    is stored. *)
Theorem first_acceptable_shown (s : MapScreen) (r : Response)
    (skipped rest : list Order) (first : Order) :
  driver_status s <> "offline" -> show_pool_order s = false ->
  get_truthy r "success" = true ->
  snapshot_of r = skipped ++ first :: rest ->
  Forall (fun o => acceptable o = Ok false) skipped ->
  acceptable first = Ok true ->
  Forall (fun o => exists b, acceptable o = Ok b) rest ->
  let s' := step (Tick (ApiReturned r)) s in
  poll_events (ApiReturned r) s
  = present_events (sound_service s) (dialogs_created s) first
  /\ show_pool_order s' = true
  /\ current_pool_order s' = Some first
  /\ pool_orders s' = snapshot_of r.
Proof.
  intros Hoff Hshow Hs Hsnap Hsk Hf Hrest.
  destruct (acceptable_orders_first skipped first rest Hsk Hf Hrest)
    as [rest' Hacc]. rewrite <- Hsnap in Hacc.
  pose proof (check_order_pool_present s r first rest' Hoff Hs Hshow Hacc)
    as Heq.
  cbv zeta. split.
  - rewrite (poll_events_of _ s
               (rev (present_events (sound_service s) (dialogs_created s)
                                    first)))
      by (rewrite Heq; apply events_present).
    apply rev_involutive.
  - simpl. rewrite Heq. unfold present, bind.
    by destruct (sound_service s).
Qed.

(** X24. One order whose status is neither empty nor a string makes the
    whole poll fail when nothing is shown: the exception is swallowed, no
    order is shown, not even an acceptable one, and the snapshot is not
    stored. *)
Theorem bad_status_drops_poll (s : MapScreen) (r : Response) (o : Order)
    (v : pyval) :
  driver_status s <> "offline" -> show_pool_order s = false ->
  get_truthy r "success" = true ->
  In o (snapshot_of r) ->
  o !! "status" = Some v -> truthy v = true ->
  (forall t, v <> PStr t) ->
  step (Tick (ApiReturned r)) s = s.
Proof.
  intros Hoff Hshow Hs Hin Hst Hv Hnot.
  assert (Ho : exists e, acceptable o = Raise e).
  { unfold acceptable. rewrite Hst, Hv. simpl.
    destruct v; try by eexists. by destruct (Hnot s0). }
  destruct Ho as [e Ho].
  destruct (acceptable_orders_raises o _ e Hin Ho) as [e' Hacc].
  simpl. by apply (check_order_pool_dropped s r e').
Qed.

Lemma count_events_app p l1 l2 :
  count_events p (l1 ++ l2) = (count_events p l1 + count_events p l2)%nat.
Proof. induction l1 as [|e l1 IH]; simpl; [done|]. rewrite IH. lia. Qed.

Lemma count_events_rev p l : count_events p (rev l) = count_events p l.
Proof.
  induction l as [|e l IH]; simpl; [done|].
  rewrite count_events_app, IH. simpl. lia.
Qed.

Lemma count_present_events sound n first :
  count_events is_open (present_events sound n first) = 1%nat
  /\ count_events is_dismiss (present_events sound n first) = 0%nat
  /\ count_events (is_toast new_order_msg) (present_events sound n first)
     = 1%nat
  /\ count_events (is_toast vanished_msg) (present_events sound n first)
     = 0%nat
  /\ count_events is_sound (present_events sound n first)
     = (if sound then 1 else 0)%nat.
Proof. by destruct sound. Qed.

Lemma present_fields first l s :
  dialogs_created (present first l s) = S (dialogs_created s)
  /\ length (on_display (present first l s)) = S (length (on_display s)).
Proof. unfold present, bind. by destruct (sound_service s) eqn:E. Qed.

Lemma accounted_step sound i s :
  sound_service s = sound -> inv s -> accounted sound s ->
  accounted sound (step i s).
Proof.
  intros Hsound Hinv (H1 & H2 & H3 & H4 & H5).
  destruct i as [reply|ok]; [|by destruct ok].
  simpl.
  destruct (check_order_pool_cases reply s)
    as [->|[(r & _ & _ & _ & ->)
       |[(r & cur & _ & _ & _ & Hshow & _ & _ & ->)
       |(r & first & rest & _ & _ & _ & Hshow & _ & ->)]]]; [done|done| |].
  - destruct Hinv as [(? & _)|[d (_ & _ & Hd & Hdisp & _)]]; [congruence|].
    unfold accounted, vanish, bind. simpl. rewrite Hd. simpl.
    rewrite Hdisp in *. rewrite without_self. simpl in *.
    repeat split; (lia || done).
  - destruct Hinv as [(_ & _ & _ & Hdisp)|[d (? & _)]]; [|congruence].
    unfold accounted. rewrite events_present.
    rewrite !count_events_app, !count_events_rev.
    destruct (count_present_events (sound_service s) (dialogs_created s)
                first) as (E1 & E2 & E3 & E4 & E5).
    destruct (present_fields first (snapshot_of r) s) as [F1 F2].
    rewrite E1, E2, E3, E4, E5, F1, F2, Hsound, Hdisp in *.
    destruct sound; simpl in *; repeat split; lia.
Qed.

Lemma accounted_run sound inputs s :
  sound_service s = sound -> inv s -> accounted sound s ->
  accounted sound (run inputs s).
Proof.
  revert s. induction inputs as [|i inputs IH]; intros s Hs Hinv Hacc; [done|].
  change (accounted sound (run inputs (step i s))). apply IH.
  - destruct i as [reply|ok]; [|by destruct ok].
    by destruct (tick_keeps_status reply s) as [_ ->].
  - by apply inv_step.
  - by apply accounted_step.
Qed.

(** X25. The books of a screen balance after any sequence of polls and
    status fetches: every dialog created was opened, the dialogs opened
    are those dismissed plus the one still on the display, each opening
    came with one new-order toast and each dismissal with one
    no-longer-available toast, and the sound was played once per opening
    when there is a sound service and never otherwise. *)
Theorem display_accounts (sound : bool) (inputs : list Input) :
  accounted sound (run inputs (init sound)).
Proof.
  apply accounted_run; [done|apply inv_init|].
  unfold accounted. simpl. by destruct sound.
Qed.

(** *** The theorems at concrete inputs *)

Lemma offline_polls_ignored_witness :
  run [Tick (ApiReturned (pool_with [order7])); StatusFetched false;
       Tick (ApiRaised (OtherError "timeout"))] (init true)
  = init true.
Proof.
  apply offline_polls_ignored; [reflexivity|].
  repeat constructor; discriminate.
Defined.

Lemma first_acceptable_shown_witness :
  let s := run [StatusFetched true] (init true) in
  let reply := ApiReturned (pool_with [order8; order7]) in
  poll_events reply s
  = [PlaySound; DialogOpen {| dialog_id := 0; order_data := order7 |};
     Toast new_order_msg]
  /\ current_pool_order (step (Tick reply) s) = Some order7.
Proof.
  intros s reply.
  destruct (first_acceptable_shown s (pool_with [order8; order7]) [order8] []
              order7) as (H1 & _ & H2 & _).
  - vm_compute. discriminate.
  - reflexivity.
  - reflexivity.
  - reflexivity.
  - constructor; [reflexivity|constructor].
  - reflexivity.
  - constructor.
  - split; [exact H1|exact H2].
Defined.

Lemma bad_status_drops_poll_witness :
  let s := run [StatusFetched true] (init true) in
  step (Tick (ApiReturned (pool_with [order7; order9]))) s = s.
Proof.
  intros s.
  apply (bad_status_drops_poll s (pool_with [order7; order9]) order9 (PInt 1)).
  - vm_compute. discriminate.
  - reflexivity.
  - reflexivity.
  - right. left. reflexivity.
  - reflexivity.
  - reflexivity.
  - intros t. discriminate.
Defined.

End DisplayProps.

(** ** The reject button *)

Module DecisionProps.
Import Reconciler ReconcilerProps Decision.

Lemma rejected_state d s k :
  showing d s -> order_data d !! "id" = Some k ->
  let s1 := snd (reject_order d s) in
  fst (reject_order d s) = Ok tt
  /\ show_pool_order s1 = true
  /\ current_pool_order s1 = Some (order_data d)
  /\ order_dialog s1 = Some d /\ on_display s1 = []
  /\ driver_status s1 <> "offline"
  /\ events s1 = Toast rejected_msg :: DialogDismiss d :: events s.
Proof.
  intros (Hshow & Hcur & Hdlg & Hdisp & Hoff) Hk.
  unfold reject_order, reject_order_from_pool, bind, dismiss. simpl.
  rewrite Hk. simpl. rewrite Hdisp, without_self. done.
Qed.

(** X28. An order the driver has rejected keeps its place: the dialog is
    gone from the display, but the screen still counts the order as
    shown, so that as long as a successful poll's snapshot carries its id
    no other order of the pool is offered and nothing is emitted. *)
Theorem rejected_order_blocks_offers (d : Dialog) (s : MapScreen) (k : pyval)
    (r : Response) :
  showing d s -> order_data d !! "id" = Some k ->
  id_present k (snapshot_of r) = true ->
  let s1 := snd (reject_order d s) in
  let s2 := step (Tick (ApiReturned r)) s1 in
  on_display s1 = []
  /\ poll_events (ApiReturned r) s1 = []
  /\ show_pool_order s2 = true
  /\ current_pool_order s2 = Some (order_data d)
  /\ on_display s2 = [].
Proof.
  intros Hd Hk Hpres s1 s2.
  destruct (rejected_state d s k Hd Hk)
    as (_ & Hshow & Hcur & Hdlg & Hdisp & Hoff & _).
  fold s1 in Hshow, Hcur, Hdlg, Hdisp, Hoff. split; [done|].
  unfold s2. simpl.
  destruct (check_order_pool_cases (ApiReturned r) s1)
    as [Heq|[(r' & _ & _ & _ & Heq)
       |[(r' & cur' & Hr & _ & _ & _ & Hcur' & Hany & _)
       |(r' & first & rest & _ & _ & _ & Hshow' & _)]]]; [| | |congruence].
  - rewrite (poll_events_of _ s1 []) by (by rewrite Heq).
    by rewrite Heq.
  - rewrite (poll_events_of _ s1 []) by (by rewrite Heq).
    by rewrite Heq.
  - exfalso. injection Hr as <-. rewrite Hcur in Hcur'.
    injection Hcur' as <-. by eapply any_same_id_present.
Qed.

(** X29. Once a successful poll's snapshot no longer carries the id of an
    order the driver has rejected, the screen takes the order for a shown
    one that vanished: it dismisses the dialog a second time and tells the
    driver that the order is no longer available; only then is the screen
    idle again. *)
Theorem rejected_order_vanishes_later (d : Dialog) (s : MapScreen)
    (k : pyval) (r : Response) :
  showing d s -> order_data d !! "id" = Some k ->
  get_truthy r "success" = true ->
  id_absent k (snapshot_of r) = true ->
  let s1 := snd (reject_order d s) in
  let s2 := step (Tick (ApiReturned r)) s1 in
  poll_events (ApiReturned r) s1 = [DialogDismiss d; Toast vanished_msg]
  /\ idle s2
  /\ events s2
     = Toast vanished_msg :: DialogDismiss d
       :: Toast rejected_msg :: DialogDismiss d :: events s.
Proof.
  intros Hd Hk Hs Habs s1 s2.
  destruct (rejected_state d s k Hd Hk)
    as (_ & Hshow & Hcur & Hdlg & Hdisp & Hoff & Hev).
  fold s1 in Hshow, Hcur, Hdlg, Hdisp, Hoff, Hev.
  assert (Heq : snd (check_order_pool (ApiReturned r) s1) = vanish s1).
  { apply (check_order_pool_vanish s1 r (order_data d) k); try done.
    by eapply any_same_id_absent. }
  split; [|split].
  - rewrite (poll_events_of _ s1 (rev (vanish_events s1)))
      by (rewrite Heq; apply events_vanish).
    rewrite rev_involutive. unfold vanish_events. by rewrite Hdlg.
  - unfold s2. simpl. rewrite Heq. unfold vanish, bind. simpl.
    rewrite Hdlg. simpl. rewrite Hdisp. by repeat split.
  - unfold s2. simpl. rewrite Heq, events_vanish. unfold vanish_events.
    rewrite Hdlg, Hev. done.
Qed.

Lemma rejected_order_blocks_offers_witness :
  let s := run [StatusFetched true; Tick (ApiReturned (pool_with [order7]))]
               (init true) in
  let d := {| dialog_id := 0; order_data := order7 |} in
  let s1 := snd (reject_order d s) in
  let reply := ApiReturned (pool_with [order7; {[ "id" := PInt 10 ]}]) in
  poll_events reply s1 = [] /\ on_display (step (Tick reply) s1) = [].
Proof.
  intros s d s1 reply.
  destruct (rejected_order_blocks_offers d s (PInt 7)
              (pool_with [order7; {[ "id" := PInt 10 ]}]))
    as (_ & H1 & _ & _ & H2).
  - vm_compute. repeat split; discriminate.
  - reflexivity.
  - reflexivity.
  - split; [exact H1|exact H2].
Defined.

Lemma rejected_order_vanishes_later_witness :
  let s := run [StatusFetched true; Tick (ApiReturned (pool_with [order7]))]
               (init true) in
  let d := {| dialog_id := 0; order_data := order7 |} in
  let s1 := snd (reject_order d s) in
  poll_events (ApiReturned (pool_with [])) s1
  = [DialogDismiss d; Toast vanished_msg].
Proof.
  intros s d s1.
  destruct (rejected_order_vanishes_later d s (PInt 7) (pool_with []))
    as (H & _).
  - vm_compute. repeat split; discriminate.
  - reflexivity.
  - reflexivity.
  - reflexivity.
  - exact H.
Defined.

End DecisionProps.

(** ** The current orders *)

Module CurrentOrdersProps.
Import Reconciler CurrentOrders.

(** X26. A fetch of the current orders announces by count alone. When the
    successful response carries a list and a list is held, the list
    fetched replaces the one held; the toast (after the sound, when there
    is a sound service) comes exactly when the new list is longer, so an
    order that replaces another passes unannounced. The loading flag is
    down afterwards. *)
Theorem announced_by_count (r : Response) (old new : list Order)
    (s : OrdersView) :
  get_truthy r "success" = true ->
  r !! "data" = Some (RList new) ->
  current_orders s = RList old ->
  let s' := snd (fetch_current_orders (ApiReturned r) s) in
  current_orders s' = RList new
  /\ is_loading s' = false
  /\ fetch_events (ApiReturned r) s
     = if (length old <? length new)%nat
       then (if has_sound s then [PlaySound] else []) ++ [Toast new_order_msg]
       else [].
Proof.
  intros Hs Hd Hold. unfold fetch_events.
  unfold fetch_current_orders, try_except, bind, get, lift, ret. simpl.
  rewrite Hs. unfold data_or_empty. rewrite Hd. simpl. rewrite Hold. simpl.
  destruct (length old <? length new)%nat; simpl.
  - destruct (has_sound s); simpl.
    + split; [done|]. split; [done|].
      replace (S (S (length (emitted s))) - length (emitted s))%nat
        with 2%nat by lia. done.
    + split; [done|]. split; [done|].
      replace (S (length (emitted s)) - length (emitted s))%nat
        with 1%nat by lia. done.
  - split; [done|]. split; [done|]. by rewrite Nat.sub_diag.
Qed.

(** X27. Whatever the reply, a fetch leaves the loading flag down; the
    orders held change only on a successful response, to what it carries
    under [data], and a failed or unsuccessful fetch emits nothing. *)
Theorem fetch_settles (reply : ApiReply) (s : OrdersView) :
  let s' := snd (fetch_current_orders reply s) in
  fst (fetch_current_orders reply s) = Ok tt
  /\ is_loading s' = false
  /\ ((current_orders s' = current_orders s /\ emitted s' = emitted s)
      \/ exists r, reply = ApiReturned r /\ get_truthy r "success" = true
                   /\ current_orders s' = data_or_empty r).
Proof.
  unfold fetch_current_orders, try_except, bind, get, lift, ret. simpl.
  destruct reply as [e|r]; simpl; [by repeat split; try left|].
  destruct (get_truthy r "success") eqn:Hs; simpl;
    [|by repeat split; try left].
  destruct (py_len (data_or_empty r)) as [n|e]; simpl;
    [|by repeat split; try left].
  destruct (py_len (current_orders s)) as [m|e]; simpl;
    [|by repeat split; try left].
  destruct (m <? n)%nat; simpl.
  - destruct (has_sound s); simpl; (split; [done|]); (split; [done|]);
      right; by exists r.
  - split; [done|]. split; [done|]. right; by exists r.
Qed.

(** *** The theorem at a concrete input *)

Lemma announced_by_count_witness :
  fetch_events (ApiReturned (pool_with [order7])) (fresh true)
  = [PlaySound; Toast new_order_msg].
Proof.
  destruct (announced_by_count (pool_with [order7]) [] [order7] (fresh true)
              eq_refl eq_refl eq_refl) as (_ & _ & H).
  exact H.
Defined.

End CurrentOrdersProps.
